(** * i18n inlining of emitted build files

    A shallow embedding of
    [packages/angular_devkit/build_angular/src/utils/i18n-inlining.ts]
    and the properties its design document states about it.

    The two functions of the file, [emittedFilesToInlineOptions] and
    [i18nInlineEmittedFiles], are written in a small monad that threads the
    file system, raises and catches JavaScript exceptions, and records every
    effectful statement in a trace. *)

From stdpp Require Import gmap strings list fin_maps.

Open Scope string_scope.
Open Scope list_scope.
Open Scope stdpp_scope.

(** ** JavaScript values *)

(** A thrown [Error]: [err.code] (absent on errors that do not come from
    [fs]) and [err.message]. *)
Record JsError := mkError { err_code : option string; err_message : string }.

(** [e.toString()] of an [Error]. *)
Definition toString (e : JsError) : string := "Error: " +:+ err_message e.

(** [s === t] on strings. *)
Definition str_eq (s t : string) : bool := bool_decide (s = t).

(** Truthiness of an optional string: [undefined] and [''] are falsy. *)
Definition truthy_string (s : option string) : bool :=
  match s with
  | Some v => negb (str_eq v "")
  | None => false
  end.

(** Truthiness of an optional boolean. *)
Definition truthy_bool (b : option bool) : bool :=
  match b with
  | Some v => v
  | None => false
  end.

(** [arr.includes(x)] on an array of strings. *)
Definition includes (arr : list string) (x : string) : bool :=
  existsb (str_eq x) arr.

(** ** Paths

    [path.join] and [path.relative] of Node are not normalised here. The
    two functions below are what Node computes when the directory is
    written without a trailing separator and without [.] or [..]
    segments, and the file name is a relative name without [.] or [..]
    segments and without a doubled separator: joining is then
    concatenation with the separator, and the name relative to the
    directory is what follows it. On other inputs Node normalises and
    these functions do not; the statements below that are literal in
    [path.join] hold of any joining function, and those that relate a
    joined path to its relative name (the copy and its ignore list) are
    about names of the form above. *)
Module path.

Definition sep : string := "/".

Definition join (dir file : string) : string := dir +:+ sep +:+ file.

(** [strip pre s] is the rest of [s] after the prefix [pre]. *)
Fixpoint strip (pre s : string) : option string :=
  match pre with
  | EmptyString => Some s
  | String a pre' =>
      match s with
      | EmptyString => None
      | String b s' => if bool_decide (a = b) then strip pre' s' else None
      end
  end.

(** The name of [to] relative to the directory [from]; a path outside
    [from] is left as it is. *)
Definition relative (from to : string) : string :=
  match strip (from +:+ sep) to with
  | Some rest => rest
  | None => to
  end.

End path.

(** ** Data of the build *)

(** [EmittedFiles] of [@angular-devkit/build-webpack], the fields read
    here: [name?: string], [file: string], [asset?: boolean],
    [extension: string]. *)
Record EmittedFiles := mkEmitted {
  name : option string;
  file : string;
  asset : option bool;
  extension : string
}.

(** ['error' | 'warning' | 'ignore']. *)
Inductive MissingTranslation := MTError | MTWarning | MTIgnore.

(** [InlineOptions] of [./process-bundle]. *)
Record InlineOptions := mkInline {
  filename : string;
  code : string;
  map : option string;
  es5 : bool;
  outputPath : string;
  missingTranslation : option MissingTranslation;
  setLocale : bool
}.

Definition set_map (a : InlineOptions) (m : string) : InlineOptions :=
  mkInline (filename a) (code a) (Some m) (es5 a) (outputPath a)
    (missingTranslation a) (setLocale a).

(** Modelled from the spec: the declaration of a diagnostic is not in this
    file; the design document gives it as a severity, error or warning, and
    a message. *)
Inductive Severity := SevError | SevWarning.

Record Diagnostic := mkDiag { diag_type : Severity; diag_message : string }.

(** One result of the executor: the file and its diagnostics, in order. *)
Record TransformResult := mkResult {
  result_file : string;
  diagnostics : list Diagnostic
}.

Definition is_error (d : Diagnostic) : bool :=
  match diag_type d with
  | SevError => true
  | SevWarning => false
  end.

(** ** The file system *)

(** A file: its text, and the error that reading or unlinking it throws,
    when there is one (permissions, a busy file, ...). *)
Record File := mkFile {
  content : string;
  read_fault : option JsError;
  unlink_fault : option JsError
}.

Abbreviation FS := (gmap string File).

(** The error of Node for a missing file: [syscall] is [open] for
    [readFileSync], [unlink] for [unlinkSync] and [copyfile] for
    [copyFile], which names both of its paths. *)
Definition ENOENT (syscall p : string) : JsError :=
  mkError (Some "ENOENT")
    ("ENOENT: no such file or directory, " +:+ syscall +:+ " '" +:+ p +:+ "'").

(** ** Effects *)

(** Every statement with an effect outside the function leaves an event;
    [ArrPush] is [originalFiles.push], [CopyAssets] and [ExecutorInlineAll]
    are the calls of [copyAssets] and of [executor.inlineAll]. *)
Inductive Event :=
| FsRead (p : string)
| FsUnlink (p : string)
| FsCopy (src dest : string)
| ArrPush (p : string)
| LogDebug (msg : string)
| LogWarn (msg : string)
| LogError (msg : string)
| SpinnerStart (text : option string)
| SpinnerStop
| SpinnerFail (text : string)
| SpinnerSucceed (text : string)
| CopyAssets (input : string) (ignore basePaths : list string)
| ExecutorNew
| ExecutorInlineAll (options : list InlineOptions)
| ExecutorStop.

(** A statement either completes with a value or throws. *)
Inductive Outcome (A : Type) :=
| Ok (a : A)
| Throw (e : JsError).
Arguments Ok {A} a.
Arguments Throw {A} e.

(** Computations: from a file system to an outcome, the file system left
    behind (also when the statement throws) and the events in order. *)
Definition M (A : Type) : Type := FS → Outcome A * FS * list Event.

#[global] Instance M_ret : MRet M := λ A a fs, (Ok a, fs, []).

#[global] Instance M_bind : MBind M := λ A B f m fs,
  match m fs with
  | (Ok a, fs1, t1) =>
      match f a fs1 with
      | (r, fs2, t2) => (r, fs2, t1 ++ t2)
      end
  | (Throw e, fs1, t1) => (Throw e, fs1, t1)
  end.

Definition throw {A} (e : JsError) : M A := λ fs, (Throw e, fs, []).

Definition emit (ev : Event) : M unit := λ fs, (Ok (), fs, [ev]).

(** [try { m } catch (e) { h e }]. *)
Definition try_catch {A} (m : M A) (h : JsError → M A) : M A := λ fs,
  match m fs with
  | (Ok a, fs1, t1) => (Ok a, fs1, t1)
  | (Throw e, fs1, t1) =>
      match h e fs1 with
      | (r, fs2, t2) => (r, fs2, t1 ++ t2)
      end
  end.

(** [try { m } finally { fin }], for a [fin] that does not throw. *)
Definition try_finally {A} (m : M A) (fin : M unit) : M A := λ fs,
  match m fs with
  | (r, fs1, t1) =>
      match fin fs1 with
      | (_, fs2, t2) => (r, fs2, t1 ++ t2)
      end
  end.

(** What [fs.readFileSync(p, 'utf8')] gives: the text, or the error it
    throws. *)
Definition read (fs : FS) (p : string) : Outcome string :=
  match fs !! p with
  | None => Throw (ENOENT "open" p)
  | Some f =>
      match read_fault f with
      | Some e => Throw e
      | None => Ok (content f)
      end
  end.

Definition readFileSync (p : string) : M string := λ fs,
  (read fs p, fs, [FsRead p]).

(** What [fs.unlinkSync(p)] does: the file system without [p], or the
    error it throws. *)
Definition unlink (fs : FS) (p : string) : Outcome FS :=
  match fs !! p with
  | None => Throw (ENOENT "unlink" p)
  | Some f =>
      match unlink_fault f with
      | Some e => Throw e
      | None => Ok (delete p fs)
      end
  end.

Definition unlinkSync (p : string) : M unit := λ fs,
  match unlink fs p with
  | Ok fs' => (Ok (), fs', [FsUnlink p])
  | Throw e => (Throw e, fs, [FsUnlink p])
  end.

(** [arr.push(x)], recorded for [originalFiles]. *)
Definition push (arr : list string) (x : string) : M (list string) :=
  emit (ArrPush x) ;; mret (arr ++ [x]).

Definition logger_debug (msg : string) : M unit := emit (LogDebug msg).
Definition logger_warn (msg : string) : M unit := emit (LogWarn msg).
Definition logger_error (msg : string) : M unit := emit (LogError msg).

(** ** [copyAssets] *)

(** Modelled from the spec: the listing [copyAssets] starts from, every
    file under the input directory, by its name relative to it (the matches
    of the glob ['**/*']). *)
Definition glob_all (cwd : string) : M (list string) := λ fs,
  (Ok (omap (path.strip (cwd +:+ path.sep)) (elements (dom fs))), fs, []).

(** Modelled from the spec: the copy of one file, [src] to [dest], with
    the same text; it throws when [src] is missing or cannot be read. *)
Definition copyFile (src dest : string) : M unit := λ fs,
  match fs !! src with
  | None =>
      (Throw (ENOENT "copyfile" (src +:+ "' -> '" +:+ dest)), fs,
       [FsCopy src dest])
  | Some f =>
      match read_fault f with
      | Some e => (Throw e, fs, [FsCopy src dest])
      | None =>
          (Ok (), <[dest := mkFile (content f) None None]> fs, [FsCopy src dest])
      end
  end.

(** [for (const x of xs) { body x }]. *)
Fixpoint for_of {A} (xs : list A) (body : A → M unit) : M unit :=
  match xs with
  | [] => mret ()
  | x :: xs' => body x ;; for_of xs' body
  end.

(** Modelled from the spec: [copyAssets] of [./copy-assets] is not in this
    file. It copies every file under the input directory into each of the
    output roots, under the same relative name, excluding exactly the files
    named in [ignore] (names relative to the input directory). The single
    entry passed here has the glob ['**/*'] and the output [''].  *)
Definition copyAssets (input : string) (ignore : list string)
    (basePaths : list string) : M unit :=
  emit (CopyAssets input ignore basePaths) ;;
  files ← glob_all input;
  for_of (filter (λ g, g ∉ ignore) files) (λ g,
    for_of basePaths (λ base,
      copyFile (path.join input g) (path.join base g))).

(** ** [emittedFilesToInlineOptions] *)

(** The test of the loop's [continue]: an asset, a file that is not a
    script, or a named file among the scripts' entry points. *)
Definition skipped (scriptsEntryPointName : list string) (e : EmittedFiles) : bool :=
  truthy_bool (asset e)
  || negb (str_eq (extension e) ".js")
  || (truthy_string (name e)
      && match name e with
         | Some n => includes scriptsEntryPointName n
         | None => false
         end).

(** [emittedFile.name === 'main' || emittedFile.name === 'vendor']. *)
Definition main_or_vendor (e : EmittedFiles) : bool :=
  match name e with
  | Some n => str_eq n "main" || str_eq n "vendor"
  | None => false
  end.

Definition unable_to_delete (p : string) (e : JsError) : string :=
  "Unable to delete i18n temporary file [" +:+ p +:+ "]: " +:+ toString e.

Definition queued (a : InlineOptions) : string :=
  "i18n file queued for processing: " +:+ filename a.

Section Consume.

Variable scriptsEntryPointName : list string.
Variable emittedPath : string.
Variable outputPath' : string.
Variable es5' : bool.
Variable missingTranslation' : option MissingTranslation.

(** [try { fs.unlinkSync(p) } catch (e) { context.logger.debug(...) }]. *)
Definition unlink_or_log (p : string) : M unit :=
  try_catch (unlinkSync p) (λ e, logger_debug (unable_to_delete p e)).

(** The second [try] of the loop body. Only its first statement, the read
    of the map, can throw, so the handler finds [action] and
    [originalFiles] as they were before the block. *)
Definition read_map (originalPath : string) (action : InlineOptions)
    (originalFiles : list string) : M (InlineOptions * list string) :=
  try_catch
    (let originalMapPath := originalPath +:+ ".map" in
     m ← readFileSync originalMapPath;
     let action := set_map action m in
     originalFiles ← push originalFiles originalMapPath;
     unlink_or_log originalMapPath ;;
     mret (action, originalFiles))
    (λ err,
      if negb (bool_decide (err_code err = Some "ENOENT"))
      then throw err
      else mret (action, originalFiles)).

(** The loop body for a file that is not skipped; the new values of
    [options] and [originalFiles]. *)
Definition consume (emittedFile : EmittedFiles)
    (options : list InlineOptions) (originalFiles : list string)
    : M (list InlineOptions * list string) :=
  let originalPath := path.join emittedPath (file emittedFile) in
  code ← readFileSync originalPath;
  let action :=
    mkInline (file emittedFile) code None es5' outputPath'
      missingTranslation' (main_or_vendor emittedFile) in
  originalFiles ← push originalFiles originalPath;
  unlink_or_log originalPath ;;
  '(action, originalFiles) ← read_map originalPath action originalFiles;
  logger_debug (queued action) ;;
  mret (options ++ [action], originalFiles).

(** [for (const emittedFile of emittedFiles) { ... }]. *)
Fixpoint consume_loop (emittedFiles : list EmittedFiles)
    (options : list InlineOptions) (originalFiles : list string)
    : M (list InlineOptions * list string) :=
  match emittedFiles with
  | [] => mret (options, originalFiles)
  | emittedFile :: rest =>
      if skipped scriptsEntryPointName emittedFile
      then consume_loop rest options originalFiles
      else
        '(options, originalFiles) ← consume emittedFile options originalFiles;
        consume_loop rest options originalFiles
  end.

Definition emittedFilesToInlineOptions (emittedFiles : list EmittedFiles)
    : M (list InlineOptions * list string) :=
  consume_loop emittedFiles [] [].

End Consume.

(** ** [i18nInlineEmittedFiles] *)

Definition processed (r : TransformResult) : string :=
  "i18n file processed: " +:+ result_file r.

(** [for (const diagnostic of result.diagnostics) { ... }]; the value is
    [hasErrors]. *)
Fixpoint report (ds : list Diagnostic) (hasErrors : bool) : M bool :=
  match ds with
  | [] => mret hasErrors
  | diagnostic :: rest =>
      emit SpinnerStop ;;
      hasErrors ← (if is_error diagnostic
                   then logger_error (diag_message diagnostic) ;; mret true
                   else logger_warn (diag_message diagnostic) ;; mret hasErrors);
      emit (SpinnerStart None) ;;
      report rest hasErrors
  end.

(** [for await (const result of ...) { ... }] over the results the
    executor yields; when the iteration ends with [Some e], the executor
    throws [e] after its last result. *)
Fixpoint for_await (results : list TransformResult) (failure : option JsError)
    (hasErrors : bool) : M bool :=
  match results with
  | [] =>
      match failure with
      | Some e => throw e
      | None => mret hasErrors
      end
  | result :: rest =>
      logger_debug (processed result) ;;
      hasErrors ← report (diagnostics result) hasErrors;
      for_await rest failure hasErrors
  end.

Section Inline.

(** The executor of [./action-executor], which is not in this file: for
    the locale data it is built with and the requests, the results
    [inlineAll] yields, in completion order, and the error it throws
    after them, when it does. *)
Variable I18nOptions : Type.
Variable inlineAll : I18nOptions → list InlineOptions →
                     list TransformResult * option JsError.

Variable i18n : I18nOptions.
Variable emittedFiles : list EmittedFiles.
Variable baseOutputPath : string.
Variable outputPaths : list string.
Variable scriptsEntryPointName : list string.
Variable emittedPath : string.
Variable es5' : bool.
Variable missingTranslation' : option MissingTranslation.

(** The block of the [try]; its value is [hasErrors]. *)
Definition inline_and_copy : M bool :=
  '(options, processedFiles) ←
    emittedFilesToInlineOptions scriptsEntryPointName emittedPath
      baseOutputPath es5' missingTranslation' emittedFiles;
  emit (ExecutorInlineAll options) ;;
  hasErrors ← for_await (inlineAll i18n options).1 (inlineAll i18n options).2 false;
  copyAssets emittedPath (path.relative emittedPath <$> processedFiles)
    outputPaths ;;
  mret hasErrors.

(** [inl b]: the function returns [b] from the [catch]; [inr hasErrors]:
    control leaves the [try] statement at its end. *)
Definition guarded : M (bool + bool) :=
  try_finally
    (try_catch
      (hasErrors ← inline_and_copy; mret (inr hasErrors))
      (λ err,
        emit (SpinnerFail ("Localized bundle generation failed: " +:+ err_message err)) ;;
        mret (inl false)))
    (emit ExecutorStop).

Definition i18nInlineEmittedFiles : M bool :=
  emit ExecutorNew ;;
  emit (SpinnerStart (Some "Generating localized bundles...")) ;;
  r ← guarded;
  match r with
  | inl b => mret b
  | inr hasErrors =>
      (if hasErrors
       then emit (SpinnerFail "Localized bundle generation failed.")
       else emit (SpinnerSucceed "Localized bundle generation complete.")) ;;
      mret (negb hasErrors)
  end.

End Inline.

(** ** Concrete runs *)

Module Scenario.

Definition plain (text : string) : File := mkFile text None None.

Definition EACCES : JsError :=
  mkError (Some "EACCES") "EACCES: permission denied, open 'tmp/main.js.map'".

Definition main_js := mkEmitted (Some "main") "main.js" None ".js".
Definition styles_css := mkEmitted (Some "styles") "styles.css" (Some true) ".css".
Definition runtime_js := mkEmitted (Some "runtime") "runtime.js" None ".js".

Definition disk : FS :=
  <["tmp/main.js" := plain "M"]>
  (<["tmp/main.js.map" := plain "MM"]>
  (<["tmp/styles.css" := plain "S"]>
  (<["tmp/runtime.js" := plain "R"]> ∅))).

(** A script with an empty name, and its file. *)
Definition unnamed_js := mkEmitted (Some "") "x.js" None ".js".
Definition disk_unnamed : FS := <["tmp/x.js" := plain "X"]> ∅.

(** A build whose [main.js] was never written. *)
Definition disk_no_main : FS :=
  <["tmp/styles.css" := plain "S"]> ∅.

(** A build whose map cannot be read, and one whose script cannot be
    unlinked. *)
Definition EPERM : JsError :=
  mkError (Some "EPERM") "EPERM: operation not permitted, unlink 'tmp/main.js'".

Definition disk_bad_map : FS :=
  <["tmp/main.js" := plain "M"]>
  (<["tmp/main.js.map" := mkFile "MM" (Some EACCES) None]>
  (<["tmp/styles.css" := plain "S"]> ∅)).

Definition disk_stuck : FS :=
  <["tmp/main.js" := mkFile "M" None (Some EPERM)]>
  (<["tmp/styles.css" := plain "S"]> ∅).

(** An executor that yields one result and then fails. *)
Definition crash : JsError := mkError None "worker exited".

Definition crashing (_ : unit) (options : list InlineOptions)
    : list TransformResult * option JsError :=
  (take 1 ((λ o, mkResult (filename o) []) <$> options), Some crash).

(** An executor that finds a missing translation in every file, reported
    as an error, and one that reports it as a warning. *)
Definition missing_key (sev : Severity) : Diagnostic :=
  mkDiag sev "No translation found for the message".

Definition strict (_ : unit) (options : list InlineOptions)
    : list TransformResult * option JsError :=
  ((λ o, mkResult (filename o) [missing_key SevError]) <$> options, None).

Definition lenient (_ : unit) (options : list InlineOptions)
    : list TransformResult * option JsError :=
  ((λ o, mkResult (filename o) [missing_key SevWarning]) <$> options, None).

(** An executor that answers every request without a diagnostic. *)
Definition quiet (_ : unit) (options : list InlineOptions)
    : list TransformResult * option JsError :=
  ((λ o, mkResult (filename o) []) <$> options, None).

End Scenario.

(** ** Vocabulary of the statements *)

(** The file system and the events [unlink_or_log] leaves. *)
Definition after_unlink (fs : FS) (p : string) : FS * list Event :=
  match unlink fs p with
  | Ok fs' => (fs', [FsUnlink p])
  | Throw e => (fs, [FsUnlink p; LogDebug (unable_to_delete p e)])
  end.

(** The request built for a file whose text is [c]. *)
Definition request (outputPath' : string) (es5' : bool)
    (missingTranslation' : option MissingTranslation)
    (e : EmittedFiles) (c : string) (m : option string) : InlineOptions :=
  mkInline (file e) c m es5' outputPath' missingTranslation' (main_or_vendor e).

(** The paths pushed on [originalFiles], in order. *)
Definition pushes (t : list Event) : list string :=
  omap (λ ev, match ev with ArrPush p => Some p | _ => None end) t.

(** Every [unlinkSync] in the trace comes after the push of its path;
    [seen] are the paths pushed before the trace starts. *)
Fixpoint unlink_after_push (seen : list string) (t : list Event) : Prop :=
  match t with
  | [] => True
  | ArrPush p :: t' => unlink_after_push (p :: seen) t'
  | FsUnlink p :: t' => p ∈ seen ∧ unlink_after_push seen t'
  | _ :: t' => unlink_after_push seen t'
  end.

(** The events of consumption: reads, pushes, unlinks and debug lines. *)
Definition consume_event (ev : Event) : bool :=
  match ev with
  | FsRead _ | FsUnlink _ | ArrPush _ | LogDebug _ => true
  | _ => false
  end.

(** What a stretch of consumption does to the file system: a file is left
    as it was or is gone after its path was pushed; the pushed paths were
    files below [root]; no unlink precedes its push. *)
Definition consumed_ok (root : string) (fs fs' : FS) (t : list Event) : Prop :=
  (∀ k, fs' !! k = fs !! k ∨ (fs' !! k = None ∧ k ∈ pushes t)) ∧
  (∀ k, k ∈ pushes t → is_Some (fs !! k) ∧ ∃ g, k = path.join root g) ∧
  unlink_after_push [] t ∧
  Forall (λ ev, consume_event ev = true) t.

(** The request [o] was built from the file [e]: its text, and its map
    when there is one, were read from [fs], and their paths are among
    [pushed]. *)
Definition request_for (root outputPath' : string) (es5' : bool)
    (missingTranslation' : option MissingTranslation) (fs : FS)
    (pushed : list string) (o : InlineOptions) (e : EmittedFiles) : Prop :=
  let p := path.join root (file e) in
  ∃ c m, o = request outputPath' es5' missingTranslation' e c m
    ∧ read fs p = Ok c
    ∧ p ∈ pushed
    ∧ ∀ text, m = Some text → read fs (p +:+ ".map") = Ok text ∧ p +:+ ".map" ∈ pushed.

(** The events of one diagnostic and of one result. *)
Definition diag_events (d : Diagnostic) : list Event :=
  [SpinnerStop;
   if is_error d then LogError (diag_message d) else LogWarn (diag_message d);
   SpinnerStart None].

Definition result_events (r : TransformResult) : list Event :=
  LogDebug (processed r) :: flat_map diag_events (diagnostics r).

Definition has_error (r : TransformResult) : bool :=
  existsb is_error (diagnostics r).

(** The copies of the files [files] of [input] into the roots [bases]. *)
Definition copy_events (input : string) (files bases : list string) : list Event :=
  g ← files; base ← bases; [FsCopy (path.join input g) (path.join base g)].

(** The names [copyAssets] copies from the file system [fs]. *)
Definition copied_names (input : string) (ignore : list string) (fs : FS)
    : list string :=
  filter (λ g, g ∉ ignore) (omap (path.strip (input +:+ path.sep)) (elements (dom fs))).

Section InlineVocabulary.

Variable I18nOptions : Type.
Variable inlineAll : I18nOptions → list InlineOptions →
                     list TransformResult * option JsError.
Variable i18n : I18nOptions.
Variable emittedFiles : list EmittedFiles.
Variable baseOutputPath : string.
Variable outputPaths : list string.
Variable scriptsEntryPointName : list string.
Variable emittedPath : string.
Variable es5' : bool.
Variable missingTranslation' : option MissingTranslation.

#[local] Abbreviation consume_all :=
  (emittedFilesToInlineOptions scriptsEntryPointName emittedPath
     baseOutputPath es5' missingTranslation' emittedFiles).

(** A fatal exception of a run from [fs]: thrown by the consumption, by
    the executor in the middle of its results, or by the copy. *)
Inductive Fatal (fs : FS) : Prop :=
| fatal_consumption err fs1 t1 :
    consume_all fs = (Throw err, fs1, t1) → Fatal fs
| fatal_transformation options files fs1 t1 err :
    consume_all fs = (Ok (options, files), fs1, t1) →
    (inlineAll i18n options).2 = Some err → Fatal fs
| fatal_reconciliation options files fs1 t1 err fs2 t3 :
    consume_all fs = (Ok (options, files), fs1, t1) →
    (inlineAll i18n options).2 = None →
    copyAssets emittedPath (path.relative emittedPath <$> files) outputPaths fs1
      = (Throw err, fs2, t3) →
    Fatal fs.

(** The results the loop of a run from [fs] receives. *)
Definition observed (fs : FS) : list TransformResult :=
  match consume_all fs with
  | (Ok (options, _), _, _) => (inlineAll i18n options).1
  | (Throw _, _, _) => []
  end.

End InlineVocabulary.

(** The rule of classification in the words of the design document: not an
    asset, a script, and a name that is absent or not among the excluded
    entry points. *)
Definition spec_eligible (scriptsEntryPointName : list string)
    (e : EmittedFiles) : Prop :=
  truthy_bool (asset e) = false
  ∧ extension e = ".js"
  ∧ (name e = None ∨ ∃ n, name e = Some n ∧ n ∉ scriptsEntryPointName).

(** The rule with the empty name counted as no name. *)
Definition eligible (scriptsEntryPointName : list string)
    (e : EmittedFiles) : Prop :=
  truthy_bool (asset e) = false
  ∧ extension e = ".js"
  ∧ (name e = None ∨ name e = Some ""
     ∨ ∃ n, name e = Some n ∧ n ∉ scriptsEntryPointName).

(** The files the loop does not skip. *)
Definition kept (scriptsEntryPointName : list string)
    (l : list EmittedFiles) : list EmittedFiles :=
  filter (λ e, skipped scriptsEntryPointName e = false) l.

(** Counting the events of a kind in a trace. *)
Fixpoint count_events (kind : Event → bool) (t : list Event) : nat :=
  match t with
  | [] => 0
  | ev :: t' => (if kind ev then 1 else 0) + count_events kind t'
  end.

Definition is_stop (ev : Event) : bool :=
  match ev with ExecutorStop => true | _ => false end.

Definition is_inline (ev : Event) : bool :=
  match ev with ExecutorInlineAll _ => true | _ => false end.

(** The events of the copy: the call and the copies of files. *)
Definition is_copy (ev : Event) : bool :=
  match ev with CopyAssets _ _ _ | FsCopy _ _ => true | _ => false end.

(** The events of the loop over the results: log lines and the spinner. *)
Definition stream_event (ev : Event) : bool :=
  match ev with
  | LogDebug _ | LogWarn _ | LogError _ | SpinnerStart _ | SpinnerStop => true
  | _ => false
  end.

(** The messages sent to [logger.error], to [logger.warn] and to
    [logger.debug], in order. *)
Definition errors_logged (t : list Event) : list string :=
  omap (λ ev, match ev with LogError m => Some m | _ => None end) t.

Definition warnings_logged (t : list Event) : list string :=
  omap (λ ev, match ev with LogWarn m => Some m | _ => None end) t.

Definition debug_logged (t : list Event) : list string :=
  omap (λ ev, match ev with LogDebug m => Some m | _ => None end) t.

(** The copies of a trace: source and destination, in order. *)
Definition copies (t : list Event) : list (string * string) :=
  omap (λ ev, match ev with FsCopy src dest => Some (src, dest) | _ => None end) t.

(** The paths given to [readFileSync], in order. *)
Definition reads (t : list Event) : list string :=
  omap (λ ev, match ev with FsRead p => Some p | _ => None end) t.

(** The paths a request leaves on [originalFiles]: the file, and its map
    when the request carries one. *)
Definition consumed_of (root : string) (o : InlineOptions) : list string :=
  path.join root (filename o)
  :: match map o with
     | Some _ => [path.join root (filename o) +:+ ".map"]
     | None => []
     end.

(** The closing lines of the spinner. *)
Definition is_spinner_end (ev : Event) : bool :=
  match ev with SpinnerFail _ | SpinnerSucceed _ => true | _ => false end.

(** A file system in which [unlinkSync] succeeds on every file. *)
Definition deletable (fs : FS) : Prop :=
  ∀ k f, fs !! k = Some f → unlink_fault f = None.

(** An executor that yields the results of [Scenario.strict] for the
    first request and of [Scenario.lenient] for the others, and the same
    results in the reverse order. *)
Module Orders.

Definition mixed (_ : unit) (options : list InlineOptions)
    : list TransformResult * option JsError :=
  (match options with
   | [] => []
   | o :: rest =>
       mkResult (filename o) [Scenario.missing_key SevError]
       :: ((λ o, mkResult (filename o) [Scenario.missing_key SevWarning]) <$> rest)
   end, None).

Definition mixed_reversed (u : unit) (options : list InlineOptions)
    : list TransformResult * option JsError :=
  (reverse (mixed u options).1, None).

End Orders.

(** A build in which [runtime.js] was written and [main.js] was not. *)
Module Aborted.

Definition disk_half : FS :=
  <["tmp/runtime.js" := Scenario.plain "R"]>
  (<["tmp/styles.css" := Scenario.plain "S"]> ∅).

End Aborted.

(** ** Strings and paths *)


Lemma append_cons (a : Ascii.ascii) (s t : string) :
  String a s +:+ t = String a (s +:+ t).
Proof. reflexivity. Qed.

Lemma append_assoc (a b c : string) : (a +:+ b) +:+ c = a +:+ b +:+ c.
Proof.
  induction a as [|x a IH]; [done |].
  by rewrite !append_cons, IH.
Qed.

Lemma append_length (a b : string) :
  String.length (a +:+ b) = String.length a + String.length b.
Proof.
  induction a as [|x a IH]; [done |].
  rewrite append_cons. simpl. by rewrite IH.
Qed.


Lemma append_neq_self (a b : string) : b ≠ "" → a ≠ a +:+ b.
Proof.
  intros Hb H. apply (f_equal String.length) in H.
  rewrite append_length in H. destruct b; [done | simpl in H; lia].
Qed.

Lemma strip_append (pre s : string) : path.strip pre (pre +:+ s) = Some s.
Proof.
  induction pre as [|a pre IH]; [done |].
  rewrite append_cons. simpl. by rewrite bool_decide_eq_true_2.
Qed.

Lemma strip_Some (pre s rest : string) :
  path.strip pre s = Some rest → s = pre +:+ rest.
Proof.
  revert s. induction pre as [|a pre IH]; intros s H; simpl in H.
  - by injection H.
  - destruct s as [|b s]; [done |]. case_bool_decide; [|done].
    subst. rewrite append_cons. f_equal. by apply IH.
Qed.

Lemma join_unfold (dir g : string) : path.join dir g = (dir +:+ path.sep) +:+ g.
Proof. unfold path.join. by rewrite append_assoc. Qed.



Lemma join_map (dir g : string) :
  path.join dir g +:+ ".map" = path.join dir (g +:+ ".map").
Proof. unfold path.join. by rewrite !append_assoc. Qed.

Lemma strip_join (dir g : string) :
  path.strip (dir +:+ path.sep) (path.join dir g) = Some g.
Proof. rewrite join_unfold. apply strip_append. Qed.

Lemma relative_join (dir g : string) : path.relative dir (path.join dir g) = g.
Proof. unfold path.relative. by rewrite strip_join. Qed.

Lemma strip_join_inv (dir k g : string) :
  path.strip (dir +:+ path.sep) k = Some g → k = path.join dir g.
Proof. intros H. rewrite join_unfold. by apply strip_Some. Qed.

(** ** Running the statements *)

Lemma bind_run {A B} (m : M A) (f : A → M B) (fs : FS) :
  (m ≫= f) fs =
  match m fs with
  | (Ok a, fs1, t1) =>
      match f a fs1 with
      | (r, fs2, t2) => (r, fs2, t1 ++ t2)
      end
  | (Throw e, fs1, t1) => (Throw e, fs1, t1)
  end.
Proof. reflexivity. Qed.

Lemma bind_emit {B} (ev : Event) (f : unit → M B) (fs : FS) :
  (emit ev ≫= f) fs =
  match f () fs with
  | (r, fs2, t2) => (r, fs2, ev :: t2)
  end.
Proof. reflexivity. Qed.

Lemma push_run (arr : list string) (x : string) (fs : FS) :
  push arr x fs = (Ok (arr ++ [x]), fs, [ArrPush x]).
Proof. reflexivity. Qed.

Lemma unlink_or_log_run (p : string) (fs : FS) :
  unlink_or_log p fs = (Ok (), (after_unlink fs p).1, (after_unlink fs p).2).
Proof.
  unfold unlink_or_log, try_catch, unlinkSync, after_unlink.
  by destruct (unlink fs p).
Qed.

Section ConsumeRun.

Variable scriptsEntryPointName : list string.
Variable emittedPath : string.
Variable outputPath' : string.
Variable es5' : bool.
Variable missingTranslation' : option MissingTranslation.

#[local] Abbreviation consume := (consume emittedPath outputPath' es5' missingTranslation').
#[local] Abbreviation consume_loop :=
  (consume_loop scriptsEntryPointName emittedPath outputPath' es5' missingTranslation').
#[local] Abbreviation req := (request outputPath' es5' missingTranslation').

(** The loop body, case by case. *)
Lemma consume_run (e : EmittedFiles) (options : list InlineOptions)
    (originalFiles : list string) (fs : FS) :
  let p := path.join emittedPath (file e) in
  let mp := p +:+ ".map" in
  consume e options originalFiles fs =
  match read fs p with
  | Throw err => (Throw err, fs, [FsRead p])
  | Ok c =>
      let fs1 := (after_unlink fs p).1 in
      let t1 := (after_unlink fs p).2 in
      match read fs1 mp with
      | Ok m =>
          (Ok (options ++ [req e c (Some m)], originalFiles ++ [p; mp]),
           (after_unlink fs1 mp).1,
           FsRead p :: ArrPush p :: t1 ++
           FsRead mp :: ArrPush mp :: (after_unlink fs1 mp).2 ++
           [LogDebug (queued (req e c (Some m)))])
      | Throw err =>
          if bool_decide (err_code err = Some "ENOENT")
          then (Ok (options ++ [req e c None], originalFiles ++ [p]),
                fs1,
                FsRead p :: ArrPush p :: t1 ++
                [FsRead mp; LogDebug (queued (req e c None))])
          else (Throw err, fs1, FsRead p :: ArrPush p :: t1 ++ [FsRead mp])
      end
  end.
Proof.
  intros p mp. unfold consume. fold p. rewrite bind_run.
  unfold readFileSync at 1. destruct (read fs p) as [c|err]; [|done].
  rewrite bind_run, push_run, bind_run, unlink_or_log_run.
  destruct (after_unlink fs p) as [fs1 t1]. cbn [fst snd].
  rewrite bind_run. unfold read_map, try_catch. fold mp.
  rewrite bind_run. unfold readFileSync at 1.
  destruct (read fs1 mp) as [m|err].
  - rewrite bind_run, push_run, bind_run, unlink_or_log_run.
    destruct (after_unlink fs1 mp) as [fs2 t2]. cbn [fst snd].
    unfold logger_debug, emit, mbind, M_bind, mret, M_ret. cbn.
    by rewrite app_nil_r, <- !app_assoc.
  - case_bool_decide; unfold logger_debug, emit, throw, mbind, M_bind, mret, M_ret; cbn.
    + by rewrite <- ?app_assoc.
    + by rewrite ?app_nil_r.
Qed.

End ConsumeRun.

(** ** The file system under consumption *)

Lemma read_Ok (fs : FS) (p c : string) :
  read fs p = Ok c → ∃ f, fs !! p = Some f ∧ read_fault f = None ∧ c = content f.
Proof.
  unfold read. destruct (fs !! p) as [f|]; [|done].
  destruct (read_fault f) eqn:Hf; [done |].
  intros [= <-]. eauto.
Qed.

Lemma read_missing (fs : FS) (p : string) :
  fs !! p = None → read fs p = Throw (ENOENT "open" p).
Proof. unfold read. by intros ->. Qed.

Lemma after_unlink_cases (fs : FS) (p : string) :
  (∃ x, unlink fs p = Throw x
        ∧ after_unlink fs p = (fs, [FsUnlink p; LogDebug (unable_to_delete p x)]))
  ∨ (is_Some (fs !! p) ∧ unlink fs p = Ok (delete p fs)
     ∧ after_unlink fs p = (delete p fs, [FsUnlink p])).
Proof.
  unfold after_unlink, unlink. destruct (fs !! p) as [f|] eqn:Hp; [|eauto].
  destruct (unlink_fault f); eauto.
Qed.

Lemma pushes_app (t t' : list Event) : pushes (t ++ t') = pushes t ++ pushes t'.
Proof. apply omap_app. Qed.

Lemma unlink_after_push_mono (seen seen' : list string) (t : list Event) :
  seen ⊆ seen' → unlink_after_push seen t → unlink_after_push seen' t.
Proof.
  revert seen seen'. induction t as [|ev t IH]; intros seen seen' Hs; [done |].
  destruct ev; simpl; try by apply IH.
  - intros [Hp Ht]. split; [by apply Hs | by eapply IH].
  - apply IH. intros x [->|Hx]%elem_of_cons.
    + apply list_elem_of_here.
    + by apply list_elem_of_further, Hs.
Qed.

Lemma unlink_after_push_app (seen : list string) (t t' : list Event) :
  unlink_after_push seen t → unlink_after_push [] t' →
  unlink_after_push seen (t ++ t').
Proof.
  revert seen. induction t as [|ev t IH]; intros seen Ht Ht'; simpl.
  - eapply unlink_after_push_mono; [|done]. set_solver.
  - destruct ev; simpl in *; try by apply IH.
    destruct Ht as [Hp Ht]. split; [done | by apply IH].
Qed.

(** The reading of [unlink_after_push]: before every unlink in the trace
    stands the push of the same path. *)
Lemma unlink_after_push_spec (seen : list string) (t t1 t2 : list Event) (p : string) :
  unlink_after_push seen t → t = t1 ++ FsUnlink p :: t2 →
  p ∈ seen ∨ ArrPush p ∈ t1.
Proof.
  revert seen t. induction t1 as [|ev t1 IH]; intros seen t Ht ->; simpl in Ht.
  - left. by destruct Ht.
  - assert (∀ seen', unlink_after_push seen' (t1 ++ FsUnlink p :: t2) →
                     p ∈ seen' ∨ ArrPush p ∈ ev :: t1) as Hrec.
    { intros seen' H. destruct (IH seen' _ H eq_refl); [by left | right].
      by apply list_elem_of_further. }
    destruct ev; try by (destruct (Hrec seen Ht); [by left | by right]).
    + destruct Ht as [_ Ht]. destruct (Hrec seen Ht); [by left | by right].
    + destruct (IH (p0 :: seen) _ Ht eq_refl) as [Hin|Hin].
      * apply elem_of_cons in Hin as [->|Hin]; [|by left].
        right. apply list_elem_of_here.
      * right. by apply list_elem_of_further.
Qed.

Lemma consumed_ok_nil (root : string) (fs : FS) : consumed_ok root fs fs [].
Proof.
  split; [by left |]. split; [|done].
  intros k Hk. by apply elem_of_nil in Hk.
Qed.

Lemma consumed_ok_app (root : string) (fs fs1 fs2 : FS) (t1 t2 : list Event) :
  consumed_ok root fs fs1 t1 → consumed_ok root fs1 fs2 t2 →
  consumed_ok root fs fs2 (t1 ++ t2).
Proof.
  intros (F1 & P1 & U1 & E1) (F2 & P2 & U2 & E2).
  split; [|split; [|split]].
  - intros k. rewrite pushes_app.
    destruct (F2 k) as [->|[-> Hk]].
    + destruct (F1 k) as [->|[-> Hk]]; [by left | right].
      split; [done | apply elem_of_app; by left].
    + right. split; [done | apply elem_of_app; by right].
  - intros k H. rewrite pushes_app in H. apply elem_of_app in H as [H|H].
    + by apply P1.
    + destruct (P2 k H) as [Hs Hg]. split; [|done].
      destruct (F1 k) as [<-|[Hn _]]; [done |].
      rewrite Hn in Hs. by destruct Hs.
  - by apply unlink_after_push_app.
  - by apply Forall_app.
Qed.

Section ConsumeFacts.

Variable scriptsEntryPointName : list string.
Variable emittedPath : string.
Variable outputPath' : string.
Variable es5' : bool.
Variable missingTranslation' : option MissingTranslation.

#[local] Abbreviation consume1 :=
  (consume emittedPath outputPath' es5' missingTranslation').
#[local] Abbreviation loop :=
  (consume_loop scriptsEntryPointName emittedPath outputPath' es5' missingTranslation').
#[local] Abbreviation req1 := (request outputPath' es5' missingTranslation').

Lemma after_unlink_ok (fs : FS) (g : string) (seen : list string) :
  let p := path.join emittedPath g in
  is_Some (fs !! p) →
  (∀ k, (after_unlink fs p).1 !! k = fs !! k
        ∨ ((after_unlink fs p).1 !! k = None ∧ k = p))
  ∧ pushes (after_unlink fs p).2 = []
  ∧ unlink_after_push (p :: seen) (after_unlink fs p).2
  ∧ Forall (λ ev, consume_event ev = true) (after_unlink fs p).2.
Proof.
  intros p Hp.
  destruct (after_unlink_cases fs p) as [(x & _ & ->)|(_ & _ & ->)]; simpl.
  - split; [by left |]. split; [done |]. split.
    + split; [apply list_elem_of_here | done].
    + by repeat constructor.
  - split.
    { intros k. destruct (decide (k = p)) as [->|Hne].
      - right. by rewrite lookup_delete_eq.
      - left. by rewrite lookup_delete_ne. }
    split; [done |]. split.
    + split; [apply list_elem_of_here | done].
    + by repeat constructor.
Qed.

(** Whatever its outcome, the loop body keeps [consumed_ok]. *)
Lemma consume_consumed_ok (e : EmittedFiles) (options : list InlineOptions)
    (originalFiles : list string) (fs fs' : FS)
    (r : Outcome (list InlineOptions * list string)) (t : list Event) :
  consume1 e options originalFiles fs = (r, fs', t) →
  consumed_ok emittedPath fs fs' t.
Proof.
  rewrite consume_run. cbv zeta.
  set (p := path.join emittedPath (file e)). set (mp := p +:+ ".map").
  destruct (read fs p) as [c|err] eqn:Hr.
  2:{ intros [= <- <- <-]. split; [by left |]. split; [|split].
      - intros k Hk. by apply elem_of_nil in Hk.
      - done.
      - by repeat constructor. }
  apply read_Ok in Hr as (f & Hp & _ & _).
  destruct (after_unlink_ok fs (file e) [] (mk_is_Some _ _ Hp))
    as (F1 & N1 & U1 & E1). fold p in F1, N1, U1, E1.
  set (fs1 := (after_unlink fs p).1) in *.
  set (t1 := (after_unlink fs p).2) in *.
  assert (∀ k, fs1 !! k = fs !! k ∨ fs1 !! k = None ∧ k ∈ [p]) as F1'.
  { intros k. destruct (F1 k) as [?|[? ->]]; [by left | right].
    split; [done | apply list_elem_of_here]. }
  assert (consumed_ok emittedPath fs fs1 (FsRead p :: ArrPush p :: t1)) as Hfirst.
  { split; [|split; [|split]].
    - simpl. fold (pushes t1). by rewrite N1.
    - simpl. fold (pushes t1). rewrite N1.
      intros k ->%list_elem_of_singleton. eauto.
    - done.
    - by repeat constructor. }
  destruct (read fs1 mp) as [m|err] eqn:Hm.
  - intros [= <- <- <-].
    apply read_Ok in Hm as (fm & Hmp & _ & _).
    assert (is_Some (fs1 !! path.join emittedPath (file e +:+ ".map"))) as Hs.
    { rewrite <- join_map. by eexists. }
    destruct (after_unlink_ok fs1 (file e +:+ ".map") [] Hs)
      as (F2 & N2 & U2 & E2).
    rewrite <- join_map in F2, N2, U2, E2. fold p mp in F2, N2, U2, E2.
    change (FsRead p :: ArrPush p :: t1 ++ FsRead mp :: ArrPush mp ::
            (after_unlink fs1 mp).2 ++ [LogDebug (queued (req1 e c (Some m)))])
      with ((FsRead p :: ArrPush p :: t1) ++
            (FsRead mp :: ArrPush mp :: (after_unlink fs1 mp).2 ++
              [LogDebug (queued (req1 e c (Some m)))])).
    apply consumed_ok_app with fs1; [done |].
    split; [|split; [|split]].
    + intros k. simpl. fold (pushes ((after_unlink fs1 mp).2 ++
        [LogDebug (queued (req1 e c (Some m)))])).
      rewrite pushes_app, N2. simpl.
      destruct (F2 k) as [?|[? ->]]; [by left | right].
      split; [done | apply list_elem_of_here].
    + simpl. fold (pushes ((after_unlink fs1 mp).2 ++
        [LogDebug (queued (req1 e c (Some m)))])).
      rewrite pushes_app, N2. simpl.
      intros k ->%list_elem_of_singleton. split; [by eexists |].
      exists (file e +:+ ".map"). unfold mp, p. apply join_map.
    + simpl. by apply unlink_after_push_app.
    + repeat constructor. apply Forall_app. split; [done |].
      by repeat constructor.
  - case_bool_decide; intros [= <- <- <-].
    + change (FsRead p :: ArrPush p :: t1 ++
              [FsRead mp; LogDebug (queued (req1 e c None))])
        with ((FsRead p :: ArrPush p :: t1) ++
              [FsRead mp; LogDebug (queued (req1 e c None))]).
      apply consumed_ok_app with fs1; [done |].
      split; [by left |]. split; [|split].
      * intros k Hk. by apply elem_of_nil in Hk.
      * done.
      * by repeat constructor.
    + change (FsRead p :: ArrPush p :: t1 ++ [FsRead mp])
        with ((FsRead p :: ArrPush p :: t1) ++ [FsRead mp]).
      apply consumed_ok_app with fs1; [done |].
      split; [by left |]. split; [|split].
      * intros k Hk. by apply elem_of_nil in Hk.
      * done.
      * by repeat constructor.
Qed.

End ConsumeFacts.

Lemma read_frame_Ok (fs fs' : FS) (k c : string) (pushed : list string) :
  (fs' !! k = fs !! k ∨ (fs' !! k = None ∧ k ∈ pushed)) →
  read fs' k = Ok c → read fs k = Ok c.
Proof.
  intros [H|[H _]] Hr.
  - unfold read in *. by rewrite <- H.
  - by rewrite (read_missing _ _ H) in Hr.
Qed.

Lemma read_frame_Throw (fs fs' : FS) (k : string) (pushed : list string) :
  (fs' !! k = fs !! k ∨ (fs' !! k = None ∧ k ∈ pushed)) →
  (∃ err, read fs k = Throw err) → ∃ err, read fs' k = Throw err.
Proof.
  intros [H|[H _]] [err Hr].
  - exists err. unfold read in *. by rewrite H.
  - exists (ENOENT "open" k). by apply read_missing.
Qed.

Section LoopFacts.

Variable scriptsEntryPointName : list string.
Variable emittedPath : string.
Variable outputPath' : string.
Variable es5' : bool.
Variable missingTranslation' : option MissingTranslation.

#[local] Abbreviation consume2 :=
  (consume emittedPath outputPath' es5' missingTranslation').
#[local] Abbreviation loop2 :=
  (consume_loop scriptsEntryPointName emittedPath outputPath' es5' missingTranslation').
#[local] Abbreviation req2 := (request outputPath' es5' missingTranslation').
#[local] Abbreviation request_for2 :=
  (request_for emittedPath outputPath' es5' missingTranslation').
#[local] Abbreviation kept2 := (kept scriptsEntryPointName).

Lemma loop_cons (e : EmittedFiles) (rest : list EmittedFiles)
    (options : list InlineOptions) (originalFiles : list string) (fs : FS) :
  loop2 (e :: rest) options originalFiles fs =
  if skipped scriptsEntryPointName e
  then loop2 rest options originalFiles fs
  else
    match consume2 e options originalFiles fs with
    | (Ok (o, f), fs1, t1) =>
        match loop2 rest o f fs1 with
        | (r, fs2, t2) => (r, fs2, t1 ++ t2)
        end
    | (Throw err, fs1, t1) => (Throw err, fs1, t1)
    end.
Proof.
  simpl. destruct (skipped scriptsEntryPointName e); [done |].
  rewrite bind_run.
  by destruct (consume2 e options originalFiles fs) as [[[[o f]|err] fs1] t1].
Qed.

(** Skipped files take no part in the loop. *)
Lemma loop_kept (l : list EmittedFiles) (options : list InlineOptions)
    (originalFiles : list string) (fs : FS) :
  loop2 l options originalFiles fs = loop2 (kept2 l) options originalFiles fs.
Proof.
  revert options originalFiles fs.
  induction l as [|e rest IH]; intros options originalFiles fs; [done |].
  rewrite loop_cons.
  destruct (skipped scriptsEntryPointName e) eqn:Hs.
  - unfold kept; rewrite filter_cons_False; [apply IH | by rewrite Hs].
  - unfold kept; rewrite filter_cons_True by done. rewrite loop_cons, Hs.
    destruct (consume2 e options originalFiles fs) as [[[[o f]|err] fs1] t1];
      [|done].
    by rewrite IH.
Qed.

Lemma loop_consumed_ok (l : list EmittedFiles) (options : list InlineOptions)
    (originalFiles : list string) (fs fs' : FS)
    (r : Outcome (list InlineOptions * list string)) (t : list Event) :
  loop2 l options originalFiles fs = (r, fs', t) →
  consumed_ok emittedPath fs fs' t.
Proof.
  revert options originalFiles fs t.
  induction l as [|e rest IH]; intros options originalFiles fs t.
  - intros [= <- <- <-]. apply consumed_ok_nil.
  - rewrite loop_cons. destruct (skipped scriptsEntryPointName e); [apply IH |].
    destruct (consume2 e options originalFiles fs)
      as [[[[o f]|err] fs1] t1] eqn:Hc.
    + destruct (loop2 rest o f fs1) as [[r2 fs2] t2] eqn:Hl.
      intros [= <- <- <-].
      eapply consumed_ok_app; [by eapply consume_consumed_ok | by eapply IH].
    + intros [= <- <- <-]. by eapply consume_consumed_ok.
Qed.

(** The values of a loop body that completes. *)
Lemma consume_values (e : EmittedFiles) (options options' : list InlineOptions)
    (originalFiles originalFiles' : list string) (fs fs' : FS) (t : list Event) :
  consume2 e options originalFiles fs = (Ok (options', originalFiles'), fs', t) →
  originalFiles' = originalFiles ++ pushes t
  ∧ ∃ o, options' = options ++ [o] ∧ request_for2 fs (pushes t) o e.
Proof.
  rewrite consume_run. cbv zeta.
  set (p := path.join emittedPath (file e)). set (mp := p +:+ ".map").
  destruct (read fs p) as [c|err] eqn:Hr; [|done].
  pose proof Hr as (f & Hp & _ & _)%read_Ok.
  destruct (after_unlink_ok emittedPath fs (file e) [] (mk_is_Some _ _ Hp))
    as (F1 & N1 & _ & _). fold p in F1, N1.
  set (fs1 := (after_unlink fs p).1) in *.
  set (t1 := (after_unlink fs p).2) in *.
  destruct (read fs1 mp) as [m|err] eqn:Hm.
  - pose proof Hm as (fm & Hmp & _ & _)%read_Ok.
    assert (is_Some (fs1 !! path.join emittedPath (file e +:+ ".map"))) as Hs.
    { rewrite <- join_map. by eexists. }
    destruct (after_unlink_ok emittedPath fs1 (file e +:+ ".map") [] Hs)
      as (_ & N2 & _ & _).
    rewrite <- join_map in N2. fold p mp in N2.
    intros [= <- <- <- <-].
    assert (pushes (FsRead p :: ArrPush p :: t1 ++ FsRead mp :: ArrPush mp ::
              (after_unlink fs1 mp).2 ++ [LogDebug (queued (req2 e c (Some m)))])
            = [p; mp]) as ->.
    { change (pushes (FsRead p :: ArrPush p :: ?u)) with (p :: pushes u).
      rewrite pushes_app, N1.
      change (pushes (FsRead mp :: ArrPush mp :: ?u)) with (mp :: pushes u).
      by rewrite pushes_app, N2. }
    split; [done |]. exists (req2 e c (Some m)). split; [done |].
    exists c, (Some m). split; [done |]. split; [done |].
    split; [apply list_elem_of_here |].
    intros text [= <-]. split.
    + apply (read_frame_Ok fs fs1 mp m [mp]); [|done].
      destruct (F1 mp) as [H|[H _]]; [by left | right].
      split; [done | apply list_elem_of_here].
    + apply list_elem_of_further, list_elem_of_here.
  - case_bool_decide; [|done]. intros [= <- <- <- <-].
    assert (pushes (FsRead p :: ArrPush p :: t1 ++
              [FsRead mp; LogDebug (queued (req2 e c None))]) = [p]) as ->.
    { change (pushes (FsRead p :: ArrPush p :: ?u)) with (p :: pushes u).
      by rewrite pushes_app, N1. }
    split; [done |]. exists (req2 e c None). split; [done |].
    exists c, None. split; [done |]. split; [done |].
    split; [apply list_elem_of_here | done].
Qed.

Lemma request_for_weaken (fs fs1 : FS) (t1 t2 : list Event)
    (o : InlineOptions) (e : EmittedFiles) :
  consumed_ok emittedPath fs fs1 t1 →
  request_for2 fs1 (pushes t2) o e →
  request_for2 fs (pushes (t1 ++ t2)) o e.
Proof.
  intros (F & _) (c & m & -> & Hr & Hp & Hm).
  exists c, m. rewrite pushes_app. split; [done |]. split; [|split].
  - by eapply read_frame_Ok.
  - apply elem_of_app. by right.
  - intros text Ht. destruct (Hm text Ht) as [Hrm Hpm]. split.
    + by eapply read_frame_Ok.
    + apply elem_of_app. by right.
Qed.

Lemma request_for_extend (fs : FS) (t1 t2 : list Event)
    (o : InlineOptions) (e : EmittedFiles) :
  request_for2 fs (pushes t1) o e →
  request_for2 fs (pushes (t1 ++ t2)) o e.
Proof.
  intros (c & m & -> & Hr & Hp & Hm).
  exists c, m. rewrite pushes_app. split; [done |]. split; [done |]. split.
  - apply elem_of_app. by left.
  - intros text Ht. destruct (Hm text Ht) as [Hrm Hpm]. split; [done |].
    apply elem_of_app. by left.
Qed.

(** The values of a loop that completes: one request for each file that
    is not skipped, in order. *)
Lemma loop_values (l : list EmittedFiles) (options options' : list InlineOptions)
    (originalFiles originalFiles' : list string) (fs fs' : FS) (t : list Event) :
  loop2 l options originalFiles fs = (Ok (options', originalFiles'), fs', t) →
  originalFiles' = originalFiles ++ pushes t
  ∧ ∃ news, options' = options ++ news
      ∧ Forall2 (request_for2 fs (pushes t)) news (kept2 l).
Proof.
  revert options originalFiles fs t.
  induction l as [|e rest IH]; intros options originalFiles fs t.
  - intros [= <- <- <- <-]. split; [by rewrite app_nil_r |].
    exists []. split; [by rewrite app_nil_r | constructor].
  - rewrite loop_cons. destruct (skipped scriptsEntryPointName e) eqn:Hs.
    { unfold kept; rewrite filter_cons_False by (by rewrite Hs). apply IH. }
    unfold kept; rewrite filter_cons_True by done.
    destruct (consume2 e options originalFiles fs)
      as [[[[o f]|err] fs1] t1] eqn:Hc; [|done].
    destruct (loop2 rest o f fs1) as [[r2 fs2] t2] eqn:Hl.
    intros [= -> <- <-].
    pose proof (consume_consumed_ok _ _ _ _ _ _ _ _ _ _ _ Hc) as Hok.
    apply consume_values in Hc as (-> & o1 & -> & Hreq).
    apply IH in Hl as (-> & news & -> & Hall).
    split; [by rewrite pushes_app, app_assoc |].
    exists (o1 :: news). split; [by rewrite <- app_assoc |].
    constructor; [by apply request_for_extend |].
    eapply Forall2_impl; [done |]. intros o' e' H'.
    by eapply request_for_weaken.
Qed.

(** A file that is not skipped and cannot be read makes the loop throw. *)
Lemma loop_unreadable (l : list EmittedFiles) (e : EmittedFiles)
    (options : list InlineOptions) (originalFiles : list string) (fs : FS) :
  e ∈ l → skipped scriptsEntryPointName e = false →
  (∃ err, read fs (path.join emittedPath (file e)) = Throw err) →
  ∃ err fs' t, loop2 l options originalFiles fs = (Throw err, fs', t).
Proof.
  intros Hin Hs. revert options originalFiles fs.
  induction l as [|e' rest IH]; intros options originalFiles fs Hr.
  { by apply elem_of_nil in Hin. }
  rewrite loop_cons.
  destruct (skipped scriptsEntryPointName e') eqn:Hs'.
  { apply elem_of_cons in Hin as [->|Hin]; [congruence | by apply IH]. }
  destruct (consume2 e' options originalFiles fs)
    as [[[[o f]|err] fs1] t1] eqn:Hc; [|eauto].
  pose proof (consume_consumed_ok _ _ _ _ _ _ _ _ _ _ _ Hc) as (F & _).
  apply elem_of_cons in Hin as [->|Hin].
  - apply consume_values in Hc as (_ & o1 & _ & (c & m & _ & Hok & _)).
    destruct Hr as [err Hr]. congruence.
  - destruct (IH Hin o f fs1) as (err & fs2 & t2 & ->).
    { by eapply read_frame_Throw. }
    eauto.
Qed.

End LoopFacts.

(** ** The result stream *)

Lemma report_run (ds : list Diagnostic) (hasErrors : bool) (fs : FS) :
  report ds hasErrors fs =
  (Ok (hasErrors || existsb is_error ds), fs, flat_map diag_events ds).
Proof.
  revert hasErrors. induction ds as [|d ds IH]; intros hasErrors.
  - by rewrite orb_false_r.
  - cbn [report]. rewrite bind_emit, bind_run. unfold diag_events at 1.
    destruct (is_error d) eqn:Hd.
    + unfold logger_error. rewrite bind_emit. cbn [mret M_ret].
      rewrite bind_emit, IH. cbn [existsb flat_map app]. rewrite Hd.
      by rewrite orb_true_r.
    + unfold logger_warn. rewrite bind_emit. cbn [mret M_ret].
      rewrite bind_emit, IH. cbn [existsb flat_map app]. by rewrite Hd.
Qed.

Lemma for_await_run (results : list TransformResult) (failure : option JsError)
    (hasErrors : bool) (fs : FS) :
  for_await results failure hasErrors fs =
  (match failure with
   | Some e => Throw e
   | None => Ok (hasErrors || existsb has_error results)
   end, fs, flat_map result_events results).
Proof.
  revert hasErrors. induction results as [|r rs IH]; intros hasErrors.
  - destruct failure; [done |]. by rewrite orb_false_r.
  - cbn [for_await]. unfold logger_debug. rewrite bind_emit, bind_run, report_run.
    rewrite IH. cbn [existsb flat_map]. unfold result_events at 2.
    unfold has_error at 2. cbn [app]. by rewrite orb_assoc.
Qed.

(** ** The copy *)

Lemma for_of_events {A} (E : A → list Event) (body : A → M unit) :
  (∀ x fs, ∃ rest, E x = (body x fs).2 ++ rest
                   ∧ ((body x fs).1.1 = Ok () → rest = [])) →
  ∀ xs fs, ∃ rest, xs ≫= E = (for_of xs body fs).2 ++ rest
                   ∧ ((for_of xs body fs).1.1 = Ok () → rest = []).
Proof.
  intros Hbody xs. induction xs as [|x xs IH]; intros fs.
  - exists []. by split.
  - cbn [for_of]. rewrite bind_run.
    destruct (Hbody x fs) as (rest1 & HE & Hok1).
    destruct (body x fs) as [[[[]|err] fs1] t1] eqn:Hb; cbn [fst snd] in *.
    + rewrite (Hok1 eq_refl), app_nil_r in HE.
      destruct (IH fs1) as (rest2 & HE2 & Hok2).
      destruct (for_of xs body fs1) as [[r2 fs2] t2]; cbn [fst snd] in *.
      exists rest2. split; [|done].
      change ((x :: xs) ≫= E) with (E x ++ (xs ≫= E)).
      by rewrite HE, HE2, app_assoc.
    + exists (rest1 ++ (xs ≫= E)). split; [|done].
      change ((x :: xs) ≫= E) with (E x ++ (xs ≫= E)).
      by rewrite HE, app_assoc.
Qed.

Lemma copyFile_events (src dest : string) (fs : FS) :
  (copyFile src dest fs).2 = [FsCopy src dest].
Proof.
  unfold copyFile. destruct (fs !! src) as [f|]; [|done].
  by destruct (read_fault f).
Qed.

(** The events of [copyAssets]: the call, then the copies of the listed
    files that are not ignored, all of them when it completes. *)
Lemma copyAssets_events (input : string) (ignore basePaths : list string) (fs : FS) :
  ∃ rest,
    CopyAssets input ignore basePaths
      :: copy_events input (copied_names input ignore fs) basePaths
    = (copyAssets input ignore basePaths fs).2 ++ rest
    ∧ ((copyAssets input ignore basePaths fs).1.1 = Ok () → rest = []).
Proof.
  unfold copyAssets. rewrite bind_emit, bind_run. unfold glob_all.
  cbv beta iota. fold (copied_names input ignore fs).
  destruct (for_of_events
    (λ g, base ← basePaths; [FsCopy (path.join input g) (path.join base g)])
    (λ g, for_of basePaths (λ base,
            copyFile (path.join input g) (path.join base g)))) with
    (xs := copied_names input ignore fs) (fs := fs) as (rest & HE & Hok).
  { intros g fs0.
    apply (for_of_events
      (λ base, [FsCopy (path.join input g) (path.join base g)])).
    intros base fs1. exists []. by rewrite copyFile_events. }
  match goal with |- context [for_of ?xs ?b fs] =>
    destruct (for_of xs b fs) as [[r2 fs2] t2] end.
  cbn [fst snd app] in *. exists rest. split; [|done].
  unfold copy_events. by rewrite HE.
Qed.

(** ** The whole run *)

Section InlineFacts.

Variable I18nOptions : Type.
Variable inlineAll : I18nOptions → list InlineOptions →
                     list TransformResult * option JsError.
Variable i18n : I18nOptions.
Variable emittedFiles : list EmittedFiles.
Variable baseOutputPath : string.
Variable outputPaths : list string.
Variable scriptsEntryPointName : list string.
Variable emittedPath : string.
Variable es5' : bool.
Variable missingTranslation' : option MissingTranslation.

#[local] Abbreviation consume_all :=
  (emittedFilesToInlineOptions scriptsEntryPointName emittedPath
     baseOutputPath es5' missingTranslation' emittedFiles).
#[local] Abbreviation block :=
  (inline_and_copy I18nOptions inlineAll i18n emittedFiles baseOutputPath
     outputPaths scriptsEntryPointName emittedPath es5' missingTranslation').
#[local] Abbreviation run :=
  (i18nInlineEmittedFiles I18nOptions inlineAll i18n emittedFiles baseOutputPath
     outputPaths scriptsEntryPointName emittedPath es5' missingTranslation').

(** The block of the [try], stage by stage. *)
Lemma inline_and_copy_run (fs : FS) :
  block fs =
  match consume_all fs with
  | (Throw err, fs1, t1) => (Throw err, fs1, t1)
  | (Ok (options, files), fs1, t1) =>
      let results := (inlineAll i18n options).1 in
      let t2 := ExecutorInlineAll options :: flat_map result_events results in
      match (inlineAll i18n options).2 with
      | Some err => (Throw err, fs1, t1 ++ t2)
      | None =>
          match copyAssets emittedPath (path.relative emittedPath <$> files)
                  outputPaths fs1 with
          | (Ok _, fs2, t3) =>
              (Ok (existsb has_error results), fs2, t1 ++ t2 ++ t3)
          | (Throw err, fs2, t3) => (Throw err, fs2, t1 ++ t2 ++ t3)
          end
      end
  end.
Proof.
  unfold inline_and_copy. rewrite bind_run.
  destruct (consume_all fs) as [[[[options files]|err] fs1] t1]; [|done].
  rewrite bind_emit, bind_run, for_await_run. cbv zeta.
  destruct (inlineAll i18n options).2 as [err|]; [done |].
  rewrite bind_run.
  destruct (copyAssets emittedPath (path.relative emittedPath <$> files)
              outputPaths fs1) as [[[[]|err] fs2] t3].
  - cbn. by rewrite app_nil_r.
  - done.
Qed.

(** The function, from its block: it always returns, and stops the
    executor last or just before the closing line of the spinner. *)
Lemma i18n_run (fs : FS) :
  run fs =
  match block fs with
  | (Ok hasErrors, fs', t) =>
      (Ok (negb hasErrors), fs',
       ExecutorNew :: SpinnerStart (Some "Generating localized bundles...") ::
       t ++ [ExecutorStop;
             if hasErrors
             then SpinnerFail "Localized bundle generation failed."
             else SpinnerSucceed "Localized bundle generation complete."])
  | (Throw err, fs', t) =>
      (Ok false, fs',
       ExecutorNew :: SpinnerStart (Some "Generating localized bundles...") ::
       t ++ [SpinnerFail ("Localized bundle generation failed: " +:+ err_message err);
             ExecutorStop])
  end.
Proof.
  unfold i18nInlineEmittedFiles. rewrite !bind_emit, bind_run.
  unfold guarded, try_finally, try_catch. rewrite bind_run.
  destruct (block fs) as [[[h|err] fs'] t].
  - destruct h; unfold mbind, M_bind, mret, M_ret, emit; cbn;
      by rewrite ?app_nil_r, <- ?app_assoc.
  - unfold mbind, M_bind, mret, M_ret, emit; cbn.
    by rewrite ?app_nil_r, <- ?app_assoc.
Qed.

End InlineFacts.

(** ** Kinds of events *)

Lemma count_events_app (kind : Event → bool) (t t' : list Event) :
  count_events kind (t ++ t') = count_events kind t + count_events kind t'.
Proof.
  induction t as [|ev t IH]; [done |].
  simpl. rewrite IH. lia.
Qed.

Lemma count_events_none (kind other : Event → bool) (t : list Event) :
  (∀ ev, other ev = true → kind ev = false) →
  Forall (λ ev, other ev = true) t →
  count_events kind t = 0.
Proof.
  intros Hk Ht. induction Ht as [|ev t Hev _ IH]; [done |].
  simpl. by rewrite (Hk _ Hev), IH.
Qed.

Lemma count_events_zero (kind : Event → bool) (t : list Event) (ev : Event) :
  count_events kind t = 0 → ev ∈ t → kind ev = false.
Proof.
  induction t as [|ev' t IH]; intros Hc Hin.
  - by apply elem_of_nil in Hin.
  - simpl in Hc. apply elem_of_cons in Hin as [->|Hin].
    + destruct (kind ev'); [done | done].
    + apply IH; [|done]. destruct (kind ev'); [done | done].
Qed.

Lemma stream_events (results : list TransformResult) :
  Forall (λ ev, stream_event ev = true) (flat_map result_events results).
Proof.
  apply Forall_flat_map, Forall_forall. intros r _.
  unfold result_events. constructor; [done |].
  apply Forall_flat_map, Forall_forall. intros d _.
  unfold diag_events. by destruct (is_error d); repeat constructor.
Qed.

Lemma elem_of_copy_events (input : string) (files bases : list string) (ev : Event) :
  ev ∈ copy_events input files bases ↔
  ∃ g base, g ∈ files ∧ base ∈ bases
            ∧ ev = FsCopy (path.join input g) (path.join base g).
Proof.
  unfold copy_events. rewrite list_elem_of_bind. split.
  - intros (g & (base & ->%list_elem_of_singleton & Hb)%list_elem_of_bind & Hg).
    eauto.
  - intros (g & base & Hg & Hb & ->). exists g. split; [|done].
    apply list_elem_of_bind. exists base. split; [|done].
    apply list_elem_of_here.
Qed.

(** The trace of [copyAssets] starts with the call; what follows are
    copies of listed files that are not ignored. *)
Lemma copyAssets_trace (input : string) (ignore basePaths : list string) (fs : FS) :
  ∃ t', (copyAssets input ignore basePaths fs).2
        = CopyAssets input ignore basePaths :: t'
    ∧ (∀ ev, ev ∈ t' →
         ev ∈ copy_events input (copied_names input ignore fs) basePaths)
    ∧ ((copyAssets input ignore basePaths fs).1.1 = Ok () →
         t' = copy_events input (copied_names input ignore fs) basePaths).
Proof.
  destruct (copyAssets_events input ignore basePaths fs) as (rest & HE & Hok).
  assert (∃ t', (copyAssets input ignore basePaths fs).2
                = CopyAssets input ignore basePaths :: t') as [t' Ht'].
  { unfold copyAssets. rewrite bind_emit.
    match goal with |- context [mbind ?f ?m fs] =>
      destruct (mbind f m fs) as [[r fs2] t2] end. by exists t2. }
  exists t'. split; [done |]. rewrite Ht' in HE.
  injection HE as HE. split.
  - intros ev Hev. rewrite HE. apply elem_of_app. by left.
  - intros H. rewrite (Hok H), app_nil_r in HE. by symmetry.
Qed.

Lemma copy_events_kind (input : string) (ignore basePaths : list string) (fs : FS) :
  Forall (λ ev, is_copy ev = true) (copyAssets input ignore basePaths fs).2.
Proof.
  destruct (copyAssets_trace input ignore basePaths fs) as (t' & -> & Hin & _).
  constructor; [done |]. apply Forall_forall. intros ev Hev.
  by apply Hin, elem_of_copy_events in Hev as (g & base & _ & _ & ->).
Qed.

Lemma no_error_iff (results : list TransformResult) :
  existsb has_error results = false ↔
  ∀ r d, r ∈ results → d ∈ diagnostics r → diag_type d ≠ SevError.
Proof.
  split.
  - intros Hex r d Hr Hd Hsev.
    apply not_true_iff_false in Hex. apply Hex.
    apply existsb_exists. exists r. split; [by apply list_elem_of_In |].
    apply existsb_exists. exists d. split; [by apply list_elem_of_In |].
    unfold is_error. by rewrite Hsev.
  - intros Hall. apply not_true_iff_false.
    intros (r & Hr & (d & Hd & Herr)%existsb_exists)%existsb_exists.
    apply (Hall r d); [by apply list_elem_of_In | by apply list_elem_of_In |].
    unfold is_error in Herr. by destruct (diag_type d).
Qed.

(** * The statements of the design document *)

(** ** The scenarios of the design document *)

(** Scenario A: [main.js] is inlined with [setLocale], [styles.css] is
    copied to every output root, [main.js] is gone from the emitted
    directory. *)
Example scenario_A :
  let run :=
    i18nInlineEmittedFiles unit Scenario.quiet ()
      [Scenario.main_js; Scenario.styles_css] "out" ["fr"; "de"] [] "tmp"
      false None Scenario.disk in
  run.1.1 = Ok true
  ∧ (∃ u v, run.2 = u ++
       ExecutorInlineAll [mkInline "main.js" "M" (Some "MM") false "out" None true]
       :: v)
  ∧ copies run.2
    = [("tmp/styles.css", "fr/styles.css"); ("tmp/styles.css", "de/styles.css");
       ("tmp/runtime.js", "fr/runtime.js"); ("tmp/runtime.js", "de/runtime.js")]
  ∧ run.1.2 !! "tmp/main.js" = None
  ∧ run.1.2 !! "fr/styles.css" = Some (Scenario.plain "S").
Proof.
  vm_compute. split; [reflexivity |]. split; [|repeat split; reflexivity].
  eexists [_; _; _; _; _; _; _; _; _]. eexists. reflexivity.
Qed.

(** Scenario B: an error diagnostic makes the verdict [false], and the
    copy still runs; with a warning in its place the verdict is [true]. *)
Example scenario_B :
  let run (executor : unit → list InlineOptions →
                      list TransformResult * option JsError) :=
    i18nInlineEmittedFiles unit executor ()
      [Scenario.main_js; Scenario.styles_css] "out" ["fr"] [] "tmp"
      false (Some MTError) Scenario.disk in
  (run Scenario.strict).1.1 = Ok false
  ∧ errors_logged (run Scenario.strict).2 = ["No translation found for the message"]
  ∧ (run Scenario.strict).1.2 !! "fr/styles.css" = Some (Scenario.plain "S")
  ∧ (run Scenario.lenient).1.1 = Ok true
  ∧ warnings_logged (run Scenario.lenient).2 = ["No translation found for the message"].
Proof. vm_compute. repeat split; reflexivity. Qed.

(** Scenario C: the excluded entry point [runtime] is never read, never
    submitted, and is copied to every output root. *)
Example scenario_C :
  let run :=
    i18nInlineEmittedFiles unit Scenario.quiet ()
      [Scenario.main_js; Scenario.styles_css; Scenario.runtime_js] "out"
      ["fr"; "de"] ["runtime"] "tmp" false None Scenario.disk in
  run.1.1 = Ok true
  ∧ pushes run.2 = ["tmp/main.js"; "tmp/main.js.map"]
  ∧ debug_logged run.2
    = ["i18n file queued for processing: main.js"; "i18n file processed: main.js"]
  ∧ run.1.2 !! "fr/runtime.js" = Some (Scenario.plain "R")
  ∧ run.1.2 !! "de/runtime.js" = Some (Scenario.plain "R").
Proof. vm_compute. repeat split; reflexivity. Qed.

(** ** Classification *)

Lemma skipped_eligible (scriptsEntryPointName : list string) (e : EmittedFiles) :
  skipped scriptsEntryPointName e = false ↔ eligible scriptsEntryPointName e.
Proof.
  unfold skipped, eligible, includes, truthy_string, str_eq.
  destruct (truthy_bool (asset e)); simpl.
  { split; [done | by intros [? _]]. }
  case_bool_decide as Hext; simpl.
  2:{ split; [done | by intros (_ & ? & _)]. }
  destruct (name e) as [n|]; simpl.
  2:{ split; [by auto | done]. }
  case_bool_decide as Hn; simpl.
  { subst n. split; [by auto | done]. }
  split.
  - intros Hex. split; [done |]. split; [done |]. right. right.
    exists n. split; [done |]. intros Hin.
    apply not_true_iff_false in Hex. apply Hex.
    apply existsb_exists. exists n. split; [by apply list_elem_of_In |].
    by apply bool_decide_eq_true_2.
  - intros (_ & _ & [?|[[= ?]|(n' & [= <-] & Hnot)]]); [done | done |].
    apply not_true_iff_false. intros (x & Hx & Heq)%existsb_exists.
    apply bool_decide_eq_true_1 in Heq as ->.
    by apply Hnot, list_elem_of_In.
Qed.

Lemma requests_files (root out : string) (es5' : bool)
    (mt : option MissingTranslation) (fs : FS) (pushed : list string)
    (news : list InlineOptions) (l : list EmittedFiles) :
  Forall2 (request_for root out es5' mt fs pushed) news l →
  Forall2 (λ o e, filename o = file e ∧ setLocale o = main_or_vendor e) news l.
Proof.
  intros H. eapply Forall2_impl; [done |].
  by intros o e (c & m & -> & _).
Qed.

(** C3 (counterexample). A script named [""] while [""] is among the
    excluded entry points: its name is present and excluded, so the rule as
    the document words it leaves it alone, but the loop builds a request
    for it. *)
Lemma classification_counterexample :
  name Scenario.unnamed_js = Some ""
  ∧ "" ∈ [""]
  ∧ ¬ spec_eligible [""] Scenario.unnamed_js
  ∧ skipped [""] Scenario.unnamed_js = false
  ∧ (emittedFilesToInlineOptions [""] "tmp" "out" false None
       [Scenario.unnamed_js] Scenario.disk_unnamed).1.1
    = Ok ([mkInline "x.js" "X" None false "out" None false], ["tmp/x.js"]).
Proof.
  split; [done |]. split; [apply list_elem_of_here |]. split.
  - intros (_ & _ & [H|(n & [= <-] & Hn)]); [done |].
    apply Hn, list_elem_of_here.
  - split; [done | vm_compute; reflexivity].
Qed.

(** C3 (amended). A file gets a request exactly when it is not tagged as an
    asset, its extension is [.js], and its name is absent, empty, or not
    among the excluded entry points. Files that do not meet the rule take no
    part in the loop: running it on the whole list is running it on the
    files that meet the rule, and when it completes the requests are those
    of these files, in order. *)
Theorem classification_rule (scriptsEntryPointName : list string)
    (emittedPath out : string) (es5' : bool) (mt : option MissingTranslation)
    (l : list EmittedFiles) :
  (∀ e, skipped scriptsEntryPointName e = false ↔ eligible scriptsEntryPointName e)
  ∧ (∀ fs,
      emittedFilesToInlineOptions scriptsEntryPointName emittedPath out es5' mt l fs
      = emittedFilesToInlineOptions scriptsEntryPointName emittedPath out es5' mt
          (kept scriptsEntryPointName l) fs)
  ∧ (∀ fs options files fs' t,
      emittedFilesToInlineOptions scriptsEntryPointName emittedPath out es5' mt l fs
      = (Ok (options, files), fs', t) →
      filename <$> options = file <$> kept scriptsEntryPointName l).
Proof.
  split; [apply skipped_eligible |]. split.
  - intros fs. apply loop_kept.
  - intros fs options files fs' t Hrun.
    unfold emittedFilesToInlineOptions in Hrun.
    apply loop_values in Hrun as (_ & news & -> & Hall).
    apply requests_files in Hall. change ([] ++ news) with news.
    induction Hall as [|o e news' l' [Hf _] _ IH]; [done |].
    rewrite !fmap_cons. by rewrite Hf, IH.
Qed.

(** A run of the rule on the files of a small build: the asset and the
    excluded entry point are left alone. *)
Lemma classification_rule_witness :
  filename <$> [mkInline "main.js" "M" (Some "MM") false "out" None true]
  = file <$> kept ["runtime"]
      [Scenario.main_js; Scenario.styles_css; Scenario.runtime_js].
Proof.
  refine (proj2 (proj2 (classification_rule ["runtime"] "tmp" "out" false None
    [Scenario.main_js; Scenario.styles_css; Scenario.runtime_js]))
    Scenario.disk _ ["tmp/main.js"; "tmp/main.js.map"]
    (delete "tmp/main.js.map" (delete "tmp/main.js" Scenario.disk))
    [FsRead "tmp/main.js"; ArrPush "tmp/main.js"; FsUnlink "tmp/main.js";
     FsRead "tmp/main.js.map"; ArrPush "tmp/main.js.map";
     FsUnlink "tmp/main.js.map";
     LogDebug "i18n file queued for processing: main.js"] _).
  vm_compute. reflexivity.
Defined.

(** ** The locale flag *)

(** C8. When consumption completes, the requests are those of the files
    that were not skipped, in order, and the [setLocale] flag of each is
    true exactly when the name of its file is [main] or [vendor]; a file
    without a name gets [false]. *)
Theorem setLocale_main_or_vendor (scriptsEntryPointName : list string)
    (emittedPath out : string) (es5' : bool) (mt : option MissingTranslation)
    (l : list EmittedFiles) (fs fs' : FS) (options : list InlineOptions)
    (files : list string) (t : list Event) :
  emittedFilesToInlineOptions scriptsEntryPointName emittedPath out es5' mt l fs
  = (Ok (options, files), fs', t) →
  Forall2 (λ o e,
      filename o = file e
      ∧ (setLocale o = true ↔ name e = Some "main" ∨ name e = Some "vendor")
      ∧ (name e = None → setLocale o = false))
    options (kept scriptsEntryPointName l).
Proof.
  intros Hrun. unfold emittedFilesToInlineOptions in Hrun.
  apply loop_values in Hrun as (_ & news & -> & Hall).
  apply requests_files in Hall. change ([] ++ news) with news.
  eapply Forall2_impl; [done |]. intros o e [Hf ->].
  split; [done |]. unfold main_or_vendor, str_eq. split.
  - destruct (name e) as [n|]; [|split; [done | by intros [?|?]]].
    rewrite orb_true_iff, !bool_decide_eq_true.
    split; (intros [?|?]; [left | right]); congruence.
  - by intros ->.
Qed.

Lemma setLocale_main_or_vendor_witness :
  Forall2 (λ o e,
      filename o = file e
      ∧ (setLocale o = true ↔ name e = Some "main" ∨ name e = Some "vendor")
      ∧ (name e = None → setLocale o = false))
    [mkInline "main.js" "M" (Some "MM") false "out" None true;
     mkInline "runtime.js" "R" None false "out" None false]
    (kept [] [Scenario.main_js; Scenario.styles_css; Scenario.runtime_js]).
Proof.
  refine (setLocale_main_or_vendor [] "tmp" "out" false None
    [Scenario.main_js; Scenario.styles_css; Scenario.runtime_js]
    Scenario.disk
    (delete "tmp/runtime.js"
      (delete "tmp/main.js.map" (delete "tmp/main.js" Scenario.disk)))
    _ ["tmp/main.js"; "tmp/main.js.map"; "tmp/runtime.js"]
    [FsRead "tmp/main.js"; ArrPush "tmp/main.js"; FsUnlink "tmp/main.js";
     FsRead "tmp/main.js.map"; ArrPush "tmp/main.js.map";
     FsUnlink "tmp/main.js.map";
     LogDebug "i18n file queued for processing: main.js";
     FsRead "tmp/runtime.js"; ArrPush "tmp/runtime.js"; FsUnlink "tmp/runtime.js";
     FsRead "tmp/runtime.js.map";
     LogDebug "i18n file queued for processing: runtime.js"] _).
  vm_compute. reflexivity.
Defined.

(** ** The verdict, the executor and the reconciliation *)

Section InlineClaims.

Variable I18nOptions : Type.
Variable inlineAll : I18nOptions → list InlineOptions →
                     list TransformResult * option JsError.
Variable i18n : I18nOptions.
Variable emittedFiles : list EmittedFiles.
Variable baseOutputPath : string.
Variable outputPaths : list string.
Variable scriptsEntryPointName : list string.
Variable emittedPath : string.
Variable es5' : bool.
Variable missingTranslation' : option MissingTranslation.

#[local] Abbreviation consume_all :=
  (emittedFilesToInlineOptions scriptsEntryPointName emittedPath
     baseOutputPath es5' missingTranslation' emittedFiles).
#[local] Abbreviation block :=
  (inline_and_copy I18nOptions inlineAll i18n emittedFiles baseOutputPath
     outputPaths scriptsEntryPointName emittedPath es5' missingTranslation').
#[local] Abbreviation run :=
  (i18nInlineEmittedFiles I18nOptions inlineAll i18n emittedFiles baseOutputPath
     outputPaths scriptsEntryPointName emittedPath es5' missingTranslation').
#[local] Abbreviation fatal :=
  (Fatal I18nOptions inlineAll i18n emittedFiles baseOutputPath
     outputPaths scriptsEntryPointName emittedPath es5' missingTranslation').
#[local] Abbreviation seen :=
  (observed I18nOptions inlineAll i18n emittedFiles baseOutputPath
     scriptsEntryPointName emittedPath es5' missingTranslation').

Lemma consume_all_kinds (fs fs1 : FS)
    (r : Outcome (list InlineOptions * list string)) (t1 : list Event) :
  consume_all fs = (r, fs1, t1) → Forall (λ ev, consume_event ev = true) t1.
Proof.
  unfold emittedFilesToInlineOptions. intros H.
  by apply loop_consumed_ok in H as (_ & _ & _ & H).
Qed.

(** The block of the [try] throws exactly on a fatal exception, and its
    value is whether an error was seen. *)
Lemma block_outcome (fs : FS) :
  match block fs with
  | (Ok hasErrors, _, _) =>
      ¬ fatal fs ∧ hasErrors = existsb has_error (seen fs)
  | (Throw _, _, _) => fatal fs
  end.
Proof.
  rewrite inline_and_copy_run. unfold observed.
  destruct (consume_all fs) as [[[[options files]|err] fs1] t1] eqn:Hc.
  2:{ by eapply fatal_consumption. }
  cbv zeta. destruct (inlineAll i18n options).2 as [err|] eqn:Hs.
  { by eapply fatal_transformation. }
  destruct (copyAssets emittedPath (path.relative emittedPath <$> files)
              outputPaths fs1) as [[[[]|err] fs2] t3] eqn:Hcp.
  2:{ by eapply fatal_reconciliation. }
  split; [|done].
  intros [err' fs1' t1' H|o' f' fs1' t1' err' H Hs'|o' f' fs1' t1' err' fs2' t3' H Hs' Hcp'];
    rewrite Hc in H; simplify_eq; congruence.
Qed.

(** C1. The function always returns a boolean, and it returns [true]
    exactly when no fatal exception occurred (in consumption, in the
    executor, in the copy) and no diagnostic of the results it received
    has the severity error; with no fatal exception and warnings only, it
    returns [true]. *)
Theorem verdict_true_iff (fs : FS) :
  let errors_seen :=
    ∃ r d, r ∈ observed I18nOptions inlineAll i18n emittedFiles baseOutputPath
      scriptsEntryPointName emittedPath es5' missingTranslation' fs
           ∧ d ∈ diagnostics r ∧ diag_type d = SevError in
  let fatal_seen :=
    Fatal I18nOptions inlineAll i18n emittedFiles baseOutputPath outputPaths
      scriptsEntryPointName emittedPath es5' missingTranslation' fs in
  ∃ b fs' t,
    i18nInlineEmittedFiles I18nOptions inlineAll i18n emittedFiles baseOutputPath
      outputPaths scriptsEntryPointName emittedPath es5' missingTranslation' fs
    = (Ok b, fs', t)
    ∧ (b = true ↔ ¬ fatal_seen ∧ ¬ errors_seen)
    ∧ (¬ fatal_seen →
       (∀ r d, r ∈ observed I18nOptions inlineAll i18n emittedFiles baseOutputPath
      scriptsEntryPointName emittedPath es5' missingTranslation' fs →
               d ∈ diagnostics r → diag_type d = SevWarning) →
       b = true).
Proof.
  cbv zeta. rewrite i18n_run. pose proof (block_outcome fs) as Hb.
  destruct (block fs) as [[[h|err] fs'] t].
  - destruct Hb as [Hnf ->]. do 3 eexists. split; [done |].
    rewrite negb_true_iff, no_error_iff. split.
    + split.
      * intros Hall. split; [done |]. intros (r & d & Hr & Hd & Hsev).
        by apply (Hall r d).
      * intros [_ Hno] r d Hr Hd Hsev. apply Hno. by exists r, d.
    + intros _ Hw r d Hr Hd. by rewrite (Hw r d Hr Hd).
  - do 3 eexists. split; [done |]. split; [|done].
    split; [done | by intros [? _]].
Qed.

(** C6. On every path the function returns, and its trace stops the
    executor exactly once. When a file that is not skipped cannot be read,
    it returns [false] and [inlineAll] is never called. *)
Theorem executor_stopped_once (fs : FS) :
  ∃ b fs' t,
    i18nInlineEmittedFiles I18nOptions inlineAll i18n emittedFiles baseOutputPath
      outputPaths scriptsEntryPointName emittedPath es5' missingTranslation' fs
    = (Ok b, fs', t)
    ∧ count_events is_stop t = 1
    ∧ (∀ e, e ∈ emittedFiles → skipped scriptsEntryPointName e = false →
         (∃ err, read fs (path.join emittedPath (file e)) = Throw err) →
         b = false ∧ count_events is_inline t = 0).
Proof.
  rewrite i18n_run, inline_and_copy_run.
  destruct (consume_all fs) as [[[[options files]|err] fs1] t1] eqn:Hc.
  - pose proof (consume_all_kinds _ _ _ _ Hc) as Hk1.
    pose proof (count_events_none is_stop consume_event _
                  ltac:(by intros []) Hk1) as H1.
    assert (count_events is_stop
              (ExecutorInlineAll options
                 :: flat_map result_events (inlineAll i18n options).1) = 0) as H2.
    { cbn [count_events is_stop].
      by rewrite (count_events_none is_stop stream_event _
                    ltac:(by intros []) (stream_events _)). }
    assert (∀ e, e ∈ emittedFiles → skipped scriptsEntryPointName e = false →
              (∃ err, read fs (path.join emittedPath (file e)) = Throw err) →
              False) as Hno.
    { intros e Hin Hs Hr.
      destruct (loop_unreadable scriptsEntryPointName emittedPath baseOutputPath
        es5' missingTranslation' emittedFiles e [] [] fs Hin Hs Hr)
        as (err & fs' & t' & H).
      unfold emittedFilesToInlineOptions in Hc. congruence. }
    cbv zeta. destruct (inlineAll i18n options).2 as [err|].
    { do 3 eexists. split; [done |]. split.
      - cbn [count_events is_stop]. by rewrite !count_events_app, H1, H2.
      - intros e Hin Hs Hr. destruct (Hno e Hin Hs Hr). }
    pose proof (copy_events_kind emittedPath
      (path.relative emittedPath <$> files) outputPaths fs1) as Hk3.
    destruct (copyAssets emittedPath (path.relative emittedPath <$> files)
                outputPaths fs1) as [[[[]|err] fs2] t3]; cbn [snd] in Hk3.
    + do 3 eexists. split; [done |]. split.
      * rewrite app_assoc. cbn [count_events is_stop].
        rewrite !count_events_app, H1, H2.
        rewrite (count_events_none is_stop is_copy _
                   ltac:(by intros []) Hk3).
        simpl. by destruct (existsb has_error _).
      * intros e Hin Hs Hr. destruct (Hno e Hin Hs Hr).
    + do 3 eexists. split; [done |]. split.
      * rewrite app_assoc. cbn [count_events is_stop].
        rewrite !count_events_app, H1, H2.
        by rewrite (count_events_none is_stop is_copy _
                      ltac:(by intros []) Hk3).
      * intros e Hin Hs Hr. destruct (Hno e Hin Hs Hr).
  - pose proof (consume_all_kinds _ _ _ _ Hc) as Hk1.
    do 3 eexists. split; [done |]. split.
    + simpl. rewrite count_events_app.
      by rewrite (count_events_none is_stop consume_event _ ltac:(by intros []) Hk1).
    + intros _ _ _ _. split; [done |].
      simpl. rewrite count_events_app.
      by rewrite (count_events_none is_inline consume_event _ ltac:(by intros []) Hk1).
Qed.

End InlineClaims.

Lemma executor_stopped_once_witness :
  ∃ b fs' t,
    i18nInlineEmittedFiles unit Scenario.quiet ()
      [Scenario.main_js; Scenario.styles_css] "out" ["fr"; "de"] [] "tmp"
      false None Scenario.disk_no_main = (Ok b, fs', t)
    ∧ count_events is_stop t = 1
    ∧ b = false
    ∧ count_events is_inline t = 0.
Proof.
  destruct (executor_stopped_once unit Scenario.quiet ()
    [Scenario.main_js; Scenario.styles_css] "out" ["fr"; "de"] [] "tmp"
    false None Scenario.disk_no_main) as (b & fs' & t & Hrun & Hstop & Hread).
  exists b, fs', t. split; [exact Hrun |]. split; [exact Hstop |].
  apply (Hread Scenario.main_js).
  - apply list_elem_of_here.
  - reflexivity.
  - exists (ENOENT "open" "tmp/main.js"). vm_compute. reflexivity.
Defined.

(** ** The loop over the results *)

Lemma logged_diag_events (ds : list Diagnostic) :
  debug_logged (flat_map diag_events ds) = []
  ∧ errors_logged (flat_map diag_events ds)
    = diag_message <$> filter (λ d, is_error d = true) ds
  ∧ warnings_logged (flat_map diag_events ds)
    = diag_message <$> filter (λ d, is_error d = false) ds.
Proof.
  induction ds as [|d ds (IHd & IHe & IHw)]; [done |].
  cbn [flat_map]. unfold debug_logged, errors_logged, warnings_logged in *.
  rewrite !omap_app, IHd, IHe, IHw. unfold diag_events.
  destruct (is_error d) eqn:Hd.
  - rewrite filter_cons_True by done.
    rewrite filter_cons_False by (by rewrite Hd). done.
  - rewrite filter_cons_False by (by rewrite Hd).
    rewrite filter_cons_True by done. done.
Qed.

Lemma logged_result (r : TransformResult) :
  debug_logged (result_events r) = [processed r]
  ∧ errors_logged (result_events r)
    = diag_message <$> filter (λ d, is_error d = true) (diagnostics r)
  ∧ warnings_logged (result_events r)
    = diag_message <$> filter (λ d, is_error d = false) (diagnostics r).
Proof.
  destruct (logged_diag_events (diagnostics r)) as (Hd & He & Hw).
  change (result_events r)
    with ([LogDebug (processed r)] ++ flat_map diag_events (diagnostics r)).
  unfold debug_logged, errors_logged, warnings_logged in *.
  by rewrite !omap_app, Hd, He, Hw.
Qed.

Lemma logged_result_events (results : list TransformResult) :
  debug_logged (flat_map result_events results) = processed <$> results
  ∧ errors_logged (flat_map result_events results)
    = diag_message <$> filter (λ d, is_error d = true) (results ≫= diagnostics)
  ∧ warnings_logged (flat_map result_events results)
    = diag_message <$> filter (λ d, is_error d = false) (results ≫= diagnostics).
Proof.
  induction results as [|r rs (IHd & IHe & IHw)]; [done |].
  destruct (logged_result r) as (Hd & He & Hw).
  change ((r :: rs) ≫= diagnostics) with (diagnostics r ++ (rs ≫= diagnostics)).
  rewrite !filter_app, !fmap_app, <- IHe, <- IHw, <- He, <- Hw.
  rewrite fmap_cons, <- IHd.
  change (processed r :: debug_logged (flat_map result_events rs))
    with ([processed r] ++ debug_logged (flat_map result_events rs)).
  rewrite <- Hd. cbn [flat_map].
  unfold debug_logged, errors_logged, warnings_logged.
  by rewrite !omap_app.
Qed.

(** C7. The loop over the results never stops early: whatever the
    diagnostics, its trace is made of the events of every result in turn,
    each result announced and then its diagnostics one by one, and its
    value is [true] as soon as one diagnostic is an error. Every result is
    announced on the debug channel, the messages of the errors go to
    [logger.error] and those of the warnings to [logger.warn], in the order
    of arrival. *)
Theorem stream_consumed_to_the_end (results : list TransformResult)
    (failure : option JsError) (hasErrors : bool) (fs : FS) :
  ∃ t,
    for_await results failure hasErrors fs =
      (match failure with
       | Some e => Throw e
       | None => Ok (hasErrors || existsb has_error results)
       end, fs, t)
    ∧ t = flat_map result_events results
    ∧ debug_logged t = processed <$> results
    ∧ errors_logged t
      = diag_message <$> filter (λ d, is_error d = true) (results ≫= diagnostics)
    ∧ warnings_logged t
      = diag_message <$> filter (λ d, is_error d = false) (results ≫= diagnostics).
Proof.
  exists (flat_map result_events results).
  split; [apply for_await_run |]. split; [done |].
  apply logged_result_events.
Qed.

(** ** Reconciliation *)

(** C5 (counterexample). The executor fails after consumption completed, in
    the middle of its results: the function returns [false] and no copy is
    attempted, so [styles.css] reaches no output root. *)
Lemma reconciliation_counterexample :
  let run :=
    i18nInlineEmittedFiles unit Scenario.crashing ()
      [Scenario.main_js; Scenario.styles_css] "out" ["fr"; "de"] [] "tmp"
      false None Scenario.disk in
  (emittedFilesToInlineOptions [] "tmp" "out" false None
     [Scenario.main_js; Scenario.styles_css] Scenario.disk).1.1
  = Ok ([mkInline "main.js" "M" (Some "MM") false "out" None true],
        ["tmp/main.js"; "tmp/main.js.map"])
  ∧ run.1.1 = Ok false
  ∧ debug_logged run.2
    = ["i18n file queued for processing: main.js"; "i18n file processed: main.js"]
  ∧ count_events is_copy run.2 = 0
  ∧ run.1.2 !! "fr/styles.css" = None
  ∧ run.1.2 !! "de/styles.css" = None.
Proof. vm_compute. repeat split; reflexivity. Qed.

Section Reconciliation.

Variable I18nOptions : Type.
Variable inlineAll : I18nOptions → list InlineOptions →
                     list TransformResult * option JsError.
Variable i18n : I18nOptions.
Variable emittedFiles : list EmittedFiles.
Variable baseOutputPath : string.
Variable outputPaths : list string.
Variable scriptsEntryPointName : list string.
Variable emittedPath : string.
Variable es5' : bool.
Variable missingTranslation' : option MissingTranslation.

#[local] Abbreviation consume_all' :=
  (emittedFilesToInlineOptions scriptsEntryPointName emittedPath
     baseOutputPath es5' missingTranslation' emittedFiles).
#[local] Abbreviation run' :=
  (i18nInlineEmittedFiles I18nOptions inlineAll i18n emittedFiles baseOutputPath
     outputPaths scriptsEntryPointName emittedPath es5' missingTranslation').

(** C5 (amended). The copy is attempted exactly when consumption and the
    executor complete without a fatal exception, whatever the diagnostics;
    it is then called with the consumed paths, relative to the emitted
    directory, as its ignore list. When a fatal exception occurs before,
    in consumption or in the middle of the results, no copy is attempted
    and the function returns [false]. *)
Theorem reconciliation_iff_no_earlier_fatal (fs : FS) :
  ∃ b fs' t,
    i18nInlineEmittedFiles I18nOptions inlineAll i18n emittedFiles baseOutputPath
      outputPaths scriptsEntryPointName emittedPath es5' missingTranslation' fs
    = (Ok b, fs', t)
    ∧ (0 < count_events is_copy t ↔
       ∃ options files fs1 t1,
         consume_all' fs = (Ok (options, files), fs1, t1)
         ∧ (inlineAll i18n options).2 = None)
    ∧ (∀ options files fs1 t1,
         consume_all' fs = (Ok (options, files), fs1, t1) →
         (inlineAll i18n options).2 = None →
         CopyAssets emittedPath (path.relative emittedPath <$> files) outputPaths ∈ t)
    ∧ (count_events is_copy t = 0 → b = false).
Proof.
  rewrite i18n_run, inline_and_copy_run.
  destruct (consume_all' fs) as [[[[options files]|err] fs1] t1] eqn:Hc.
  - pose proof (consume_all_kinds _ _ _ _ _ _ _ _ _ _ Hc) as Hk1.
    pose proof (count_events_none is_copy consume_event _
                  ltac:(by intros []) Hk1) as H1.
    assert (count_events is_copy
              (ExecutorInlineAll options
                 :: flat_map result_events (inlineAll i18n options).1) = 0) as H2.
    { cbn [count_events is_copy].
      by rewrite (count_events_none is_copy stream_event _
                    ltac:(by intros []) (stream_events _)). }
    cbv zeta. destruct (inlineAll i18n options).2 as [err|] eqn:Hs.
    { do 3 eexists. split; [done |].
      assert (count_events is_copy
        (ExecutorNew :: SpinnerStart (Some "Generating localized bundles...")
          :: (t1 ++ ExecutorInlineAll options
                :: flat_map result_events (inlineAll i18n options).1) ++
             [SpinnerFail ("Localized bundle generation failed: " +:+ err_message err);
              ExecutorStop]) = 0) as ->.
      { cbn [count_events is_copy]. by rewrite !count_events_app, H1, H2. }
      split; [|split; [|done]].
      - split; [lia |]. intros (o & f & fs1' & t1' & [= <- <- <- <-] & Hn).
        congruence.
      - intros o f fs1' t1' [= <- <- <- <-] Hn. congruence. }
    destruct (copyAssets_trace emittedPath (path.relative emittedPath <$> files)
                outputPaths fs1) as (t' & Ht3 & _).
    assert (∀ (r : Outcome ()) fs2 t3 tail,
      copyAssets emittedPath (path.relative emittedPath <$> files) outputPaths fs1
        = (r, fs2, t3) →
      let t := ExecutorNew :: SpinnerStart (Some "Generating localized bundles...")
        :: (t1 ++ (ExecutorInlineAll options
                     :: flat_map result_events (inlineAll i18n options).1) ++ t3)
           ++ tail in
      0 < count_events is_copy t
      ∧ CopyAssets emittedPath (path.relative emittedPath <$> files) outputPaths ∈ t)
      as Hcopy.
    { intros r fs2 t3 tail Hcp. rewrite Hcp in Ht3. cbn [snd] in Ht3. subst t3.
      cbv zeta. split.
      - cbn [count_events is_copy]. rewrite !count_events_app.
        cbn [count_events is_copy]. lia.
      - do 2 apply list_elem_of_further. apply elem_of_app. left.
        apply elem_of_app. right. apply elem_of_app. right.
        apply list_elem_of_here. }
    destruct (copyAssets emittedPath (path.relative emittedPath <$> files)
                outputPaths fs1) as [[[[]|err] fs2] t3] eqn:Hcp.
    + destruct (Hcopy _ _ _
        [ExecutorStop;
         if existsb has_error (inlineAll i18n options).1
         then SpinnerFail "Localized bundle generation failed."
         else SpinnerSucceed "Localized bundle generation complete."] eq_refl)
        as [Hpos Hin].
      do 3 eexists. split; [done |]. split; [|split].
      * split; [|done]. intros _. by exists options, files, fs1, t1.
      * by intros o f fs1' t1' [= <- <- <- <-] _.
      * cbv zeta in Hpos. lia.
    + destruct (Hcopy _ _ _
        [SpinnerFail ("Localized bundle generation failed: " +:+ err_message err);
         ExecutorStop] eq_refl) as [Hpos Hin].
      do 3 eexists. split; [done |]. split; [|split].
      * split; [|done]. intros _. by exists options, files, fs1, t1.
      * by intros o f fs1' t1' [= <- <- <- <-] _.
      * done.
  - pose proof (consume_all_kinds _ _ _ _ _ _ _ _ _ _ Hc) as Hk1.
    pose proof (count_events_none is_copy consume_event _
                  ltac:(by intros []) Hk1) as H1.
    do 3 eexists. split; [done |].
    assert (count_events is_copy
      (ExecutorNew :: SpinnerStart (Some "Generating localized bundles...")
        :: t1 ++
           [SpinnerFail ("Localized bundle generation failed: " +:+ err_message err);
            ExecutorStop]) = 0) as ->.
    { cbn [count_events is_copy]. by rewrite !count_events_app, H1. }
    split; [|split; [|done]].
    + split; [lia |]. by intros (o & f & fs1' & t1' & [=] & _).
    + by intros o f fs1' t1' [=].
Qed.

End Reconciliation.

(** On the build of the counterexample with an executor that does not
    fail, the copy is called with the two consumed paths to ignore. *)
Lemma reconciliation_iff_no_earlier_fatal_witness :
  ∃ b fs' t,
    i18nInlineEmittedFiles unit Scenario.quiet ()
      [Scenario.main_js; Scenario.styles_css] "out" ["fr"; "de"] [] "tmp"
      false None Scenario.disk = (Ok b, fs', t)
    ∧ CopyAssets "tmp" ["main.js"; "main.js.map"] ["fr"; "de"] ∈ t.
Proof.
  destruct (reconciliation_iff_no_earlier_fatal unit Scenario.quiet ()
    [Scenario.main_js; Scenario.styles_css] "out" ["fr"; "de"] [] "tmp"
    false None Scenario.disk) as (b & fs' & t & Hrun & _ & Hcall & _).
  exists b, fs', t. split; [exact Hrun |].
  apply (Hcall [mkInline "main.js" "M" (Some "MM") false "out" None true]
    ["tmp/main.js"; "tmp/main.js.map"]
    (delete "tmp/main.js.map" (delete "tmp/main.js" Scenario.disk))
    [FsRead "tmp/main.js"; ArrPush "tmp/main.js"; FsUnlink "tmp/main.js";
     FsRead "tmp/main.js.map"; ArrPush "tmp/main.js.map";
     FsUnlink "tmp/main.js.map";
     LogDebug "i18n file queued for processing: main.js"]).
  - vm_compute. reflexivity.
  - reflexivity.
Defined.

(** ** The map file and the failures of [unlinkSync] *)

Lemma lookup_after_unlink_ne (fs : FS) (p k : string) :
  k ≠ p → (after_unlink fs p).1 !! k = fs !! k.
Proof.
  intros Hne.
  destruct (after_unlink_cases fs p) as [(x & _ & ->)|(_ & _ & ->)]; [done |].
  by apply lookup_delete_ne.
Qed.

Lemma read_lookup (fs fs' : FS) (k : string) :
  fs' !! k = fs !! k → read fs' k = read fs k.
Proof. unfold read. by intros ->. Qed.

Lemma unlink_Throw_lookup (fs fs' : FS) (k : string) (x : JsError) :
  fs' !! k = fs !! k → unlink fs k = Throw x → unlink fs' k = Throw x.
Proof.
  unfold unlink. intros ->. destruct (fs !! k) as [f|]; [|done].
  by destruct (unlink_fault f).
Qed.

Lemma unlink_Ok_lookup (fs fs' fs2 : FS) (k : string) :
  fs' !! k = fs !! k → unlink fs k = Ok fs2 → unlink fs' k = Ok (delete k fs').
Proof.
  unfold unlink. intros ->. destruct (fs !! k) as [f|]; [|done].
  by destruct (unlink_fault f).
Qed.

Lemma map_path_ne (p : string) : p +:+ ".map" ≠ p.
Proof. intros H. by apply (append_neq_self p ".map"). Qed.

(** C4 (counterexample). The map of [main.js] exists and cannot be read
    (permission denied, not a missing file): the error is thrown out of
    [emittedFilesToInlineOptions], nothing is logged about it, and the
    whole batch is given up: the function returns [false] and the executor
    is never called. *)
Lemma map_read_error_counterexample :
  let run :=
    i18nInlineEmittedFiles unit Scenario.quiet ()
      [Scenario.main_js; Scenario.styles_css] "out" ["fr"; "de"] [] "tmp"
      false None Scenario.disk_bad_map in
  read Scenario.disk_bad_map "tmp/main.js" = Ok "M"
  ∧ read Scenario.disk_bad_map "tmp/main.js.map" = Throw Scenario.EACCES
  ∧ err_code Scenario.EACCES ≠ Some "ENOENT"
  ∧ (emittedFilesToInlineOptions [] "tmp" "out" false None
       [Scenario.main_js; Scenario.styles_css] Scenario.disk_bad_map).1.1
    = Throw Scenario.EACCES
  ∧ run.1.1 = Ok false
  ∧ debug_logged run.2 = []
  ∧ count_events is_inline run.2 = 0.
Proof. vm_compute. repeat split; (reflexivity || discriminate). Qed.

(** C4 (amended). For a file whose text was read, the map is looked for
    at the path of the file followed by [.map]. When reading it fails with
    the code [ENOENT], the request is built without a map and nothing is
    thrown. When reading it succeeds, the map is attached and its path
    pushed; a failure to unlink the map is logged on the debug channel and
    nothing is thrown. When reading it fails with any other error, that
    error is thrown out of the loop body. *)
Theorem map_file_policy (emittedPath out : string) (es5' : bool)
    (mt : option MissingTranslation) (e : EmittedFiles)
    (options : list InlineOptions) (originalFiles : list string)
    (fs : FS) (c : string) :
  let p := path.join emittedPath (file e) in
  let mp := p +:+ ".map" in
  read fs p = Ok c →
  (∀ err, read fs mp = Throw err → err_code err = Some "ENOENT" →
     ∃ fs' t,
       consume emittedPath out es5' mt e options originalFiles fs
       = (Ok (options ++ [request out es5' mt e c None], originalFiles ++ [p]),
          fs', t))
  ∧ (∀ m, read fs mp = Ok m →
     ∃ fs' t,
       consume emittedPath out es5' mt e options originalFiles fs
       = (Ok (options ++ [request out es5' mt e c (Some m)],
              originalFiles ++ [p; mp]), fs', t)
       ∧ (∀ x, unlink fs mp = Throw x →
            LogDebug (unable_to_delete mp x) ∈ t ∧ fs' !! mp = fs !! mp)
       ∧ (∀ fs2, unlink fs mp = Ok fs2 → fs' !! mp = None))
  ∧ (∀ err, read fs mp = Throw err → err_code err ≠ Some "ENOENT" →
     ∃ fs' t,
       consume emittedPath out es5' mt e options originalFiles fs
       = (Throw err, fs', t)).
Proof.
  intros p mp Hp. rewrite consume_run. fold p mp. rewrite Hp. cbv zeta.
  pose proof (lookup_after_unlink_ne fs p mp (map_path_ne p)) as Hmp.
  rewrite (read_lookup _ _ _ Hmp).
  split; [|split].
  - intros err -> Hcode. rewrite bool_decide_eq_true_2 by done. eauto.
  - intros m ->. do 2 eexists. split; [done |].
    set (fs1 := (after_unlink fs p).1) in *.
    destruct (after_unlink_cases fs1 mp) as [(x' & Hx' & ->)|(_ & Hx' & ->)];
      cbn [fst snd]; split.
    + intros x Hx. apply (unlink_Throw_lookup _ _ _ _ Hmp) in Hx.
      assert (x' = x) as -> by congruence. split; [|done].
      do 2 apply list_elem_of_further. apply elem_of_app. right.
      do 3 apply list_elem_of_further. apply list_elem_of_here.
    + intros fs2 Hx. apply (unlink_Ok_lookup _ _ _ _ Hmp) in Hx. congruence.
    + intros x Hx. apply (unlink_Throw_lookup _ _ _ _ Hmp) in Hx. congruence.
    + intros fs2 _. apply lookup_delete_eq.
  - intros err -> Hcode. rewrite bool_decide_eq_false_2 by done. eauto.
Qed.

Lemma map_file_policy_witness :
  (∃ fs' t,
     consume "tmp" "out" false None Scenario.runtime_js [] [] Scenario.disk
     = (Ok ([request "out" false None Scenario.runtime_js "R" None],
            ["tmp/runtime.js"]), fs', t))
  ∧ (∃ fs' t,
     consume "tmp" "out" false None Scenario.main_js [] [] Scenario.disk
     = (Ok ([request "out" false None Scenario.main_js "M" (Some "MM")],
            ["tmp/main.js"; "tmp/main.js.map"]), fs', t)
     ∧ fs' !! "tmp/main.js.map" = None)
  ∧ (∃ fs' t,
     consume "tmp" "out" false None Scenario.main_js [] [] Scenario.disk_bad_map
     = (Throw Scenario.EACCES, fs', t)).
Proof.
  split; [|split].
  - assert (read Scenario.disk "tmp/runtime.js" = Ok "R") as Hr
      by (vm_compute; reflexivity).
    apply (proj1 (map_file_policy "tmp" "out" false None Scenario.runtime_js
                    [] [] Scenario.disk "R" Hr) (ENOENT "open" "tmp/runtime.js.map")).
    + vm_compute. reflexivity.
    + reflexivity.
  - assert (read Scenario.disk "tmp/main.js" = Ok "M") as Hr
      by (vm_compute; reflexivity).
    destruct (proj1 (proj2 (map_file_policy "tmp" "out" false None
      Scenario.main_js [] [] Scenario.disk "M" Hr)) "MM")
      as (fs' & t & Hrun & _ & Hgone).
    + vm_compute. reflexivity.
    + exists fs', t. split; [exact Hrun |].
      apply (Hgone (delete "tmp/main.js.map" Scenario.disk)).
      vm_compute. reflexivity.
  - assert (read Scenario.disk_bad_map "tmp/main.js" = Ok "M") as Hr
      by (vm_compute; reflexivity).
    apply (proj2 (proj2 (map_file_policy "tmp" "out" false None
      Scenario.main_js [] [] Scenario.disk_bad_map "M" Hr)) Scenario.EACCES).
    + vm_compute. reflexivity.
    + discriminate.
Defined.

(** C9. A file that is not skipped, whose text was read and whose unlink
    fails: the failure is logged on the debug channel and is never thrown
    (the loop body throws only the error of a map that cannot be read), and
    the file is left where it is. When the map is missing or can be read,
    the request is built with the text that was read, the path is pushed,
    and the loop goes on with the files that follow. *)
Theorem primary_unlink_failure_is_logged (scriptsEntryPointName : list string)
    (emittedPath out : string) (es5' : bool) (mt : option MissingTranslation)
    (e : EmittedFiles) (rest : list EmittedFiles)
    (options : list InlineOptions) (originalFiles : list string)
    (fs : FS) (c : string) (x : JsError) :
  let p := path.join emittedPath (file e) in
  let mp := p +:+ ".map" in
  skipped scriptsEntryPointName e = false →
  read fs p = Ok c →
  unlink fs p = Throw x →
  ∃ r fs1 t1,
    consume emittedPath out es5' mt e options originalFiles fs = (r, fs1, t1)
    ∧ LogDebug (unable_to_delete p x) ∈ t1
    ∧ fs1 !! p = fs !! p
    ∧ (∀ err, r = Throw err →
         read fs mp = Throw err ∧ err_code err ≠ Some "ENOENT")
    ∧ ((∀ err, read fs mp = Throw err → err_code err = Some "ENOENT") →
       ∃ m files',
         r = Ok (options ++ [request out es5' mt e c m], files')
         ∧ p ∈ files'
         ∧ consume_loop scriptsEntryPointName emittedPath out es5' mt (e :: rest)
             options originalFiles fs
           = (let '(r2, fs2, t2) :=
                consume_loop scriptsEntryPointName emittedPath out es5' mt rest
                  (options ++ [request out es5' mt e c m]) files' fs1 in
              (r2, fs2, t1 ++ t2))).
Proof.
  intros p mp Hs Hp Hx. rewrite loop_cons, Hs, consume_run. fold p mp.
  rewrite Hp. cbv zeta.
  pose proof (lookup_after_unlink_ne fs p mp (map_path_ne p)) as Hmp.
  rewrite (read_lookup _ _ _ Hmp).
  assert (after_unlink fs p = (fs, [FsUnlink p; LogDebug (unable_to_delete p x)]))
    as Hau by (unfold after_unlink; by rewrite Hx).
  rewrite Hau. cbn [fst snd].
  assert (∀ u, LogDebug (unable_to_delete p x)
               ∈ FsRead p :: ArrPush p
                   :: [FsUnlink p; LogDebug (unable_to_delete p x)] ++ u) as Hlog.
  { intros u. do 3 apply list_elem_of_further. apply list_elem_of_here. }
  destruct (read fs mp) as [text|err] eqn:Hm.
  - do 3 eexists. split; [done |]. split; [apply Hlog |]. split; [|split].
    + apply lookup_after_unlink_ne. intros H. by apply (map_path_ne p).
    + done.
    + intros _. exists (Some text). eexists. split; [done |]. split; [|done].
      apply elem_of_app. right. apply list_elem_of_here.
  - case_bool_decide as Hcode.
    + do 3 eexists. split; [done |]. split; [apply Hlog |]. split; [done |].
      split; [done |].
      intros _. exists None. eexists. split; [done |]. split; [|done].
      apply elem_of_app. right. apply list_elem_of_here.
    + do 3 eexists. split; [done |]. split; [apply Hlog |]. split; [done |].
      split.
      * by intros err' [= <-].
      * intros Hmap. by destruct (Hcode (Hmap err eq_refl)).
Qed.

Lemma primary_unlink_failure_is_logged_witness :
  ∃ m files' fs1 t1,
    consume "tmp" "out" false None Scenario.main_js [] [] Scenario.disk_stuck
    = (Ok ([request "out" false None Scenario.main_js "M" m], files'), fs1, t1)
    ∧ LogDebug (unable_to_delete "tmp/main.js" Scenario.EPERM) ∈ t1
    ∧ "tmp/main.js" ∈ files'
    ∧ fs1 !! "tmp/main.js" = Scenario.disk_stuck !! "tmp/main.js".
Proof.
  destruct (primary_unlink_failure_is_logged [] "tmp" "out" false None
    Scenario.main_js [Scenario.styles_css] [] [] Scenario.disk_stuck
    "M" Scenario.EPERM)
    as (r & fs1 & t1 & Hrun & Hlog & Hkeep & _ & Hnext).
  - reflexivity.
  - vm_compute. reflexivity.
  - vm_compute. reflexivity.
  - destruct Hnext as (m & files' & -> & Hin & _).
    + intros err. vm_compute. intros [= <-]. reflexivity.
    + by exists m, files', fs1, t1.
Defined.

(** ** Consumed paths and copied paths *)







Lemma elem_of_copied_names (input : string) (ignore : list string)
    (fs : FS) (g : string) :
  g ∈ copied_names input ignore fs ↔
  ((g ∉ ignore) ∧ is_Some (fs !! path.join input g)).
Proof.
  unfold copied_names. rewrite list_elem_of_filter, list_elem_of_omap.
  split.
  - intros [Hg (k & Hk & Hs)]. split; [done |].
    apply strip_join_inv in Hs as ->.
    by apply elem_of_elements, elem_of_dom in Hk.
  - intros [Hg Hs]. split; [done |]. exists (path.join input g).
    split; [by apply elem_of_elements, elem_of_dom | apply strip_join].
Qed.

Lemma request_for_pushed (root out : string) (es5' : bool)
    (mt : option MissingTranslation) (fs : FS) (pushed : list string)
    (news : list InlineOptions) (l : list EmittedFiles) :
  Forall2 (request_for root out es5' mt fs pushed) news l →
  (∀ e, e ∈ l → path.join root (file e) ∈ pushed)
  ∧ (∀ o, o ∈ news → is_Some (map o) →
       path.join root (filename o) +:+ ".map" ∈ pushed).
Proof.
  intros H. induction H as [|o e news l (c & m & -> & _ & Hp & Hm) _ [IHe IHo]].
  - split; intros x Hx; by apply elem_of_nil in Hx.
  - split.
    + intros e' [->|He']%elem_of_cons; [done | by apply IHe].
    + intros o' [->|Ho']%elem_of_cons; [|by apply IHo].
      intros [text Ht]. simpl in Ht. by destruct (Hm text Ht).
Qed.

Section Coverage.

Variable I18nOptions : Type.
Variable inlineAll : I18nOptions → list InlineOptions →
                     list TransformResult * option JsError.
Variable i18n : I18nOptions.
Variable emittedFiles : list EmittedFiles.
Variable baseOutputPath : string.
Variable outputPaths : list string.
Variable scriptsEntryPointName : list string.
Variable emittedPath : string.
Variable es5' : bool.
Variable missingTranslation' : option MissingTranslation.

#[local] Abbreviation consume_all'' :=
  (emittedFilesToInlineOptions scriptsEntryPointName emittedPath
     baseOutputPath es5' missingTranslation' emittedFiles).
#[local] Abbreviation run'' :=
  (i18nInlineEmittedFiles I18nOptions inlineAll i18n emittedFiles baseOutputPath
     outputPaths scriptsEntryPointName emittedPath es5' missingTranslation').

(** The trace of a run whose consumption completes: the events of the
    copy, when the executor does not fail, between events that are not
    copies. *)
Lemma run_trace_copy (fs fs1 : FS) (options : list InlineOptions)
    (files : list string) (t1 : list Event) :
  consume_all'' fs = (Ok (options, files), fs1, t1) →
  ∃ pre post,
    (run'' fs).2
    = pre ++
      match (inlineAll i18n options).2 with
      | None =>
          (copyAssets emittedPath (path.relative emittedPath <$> files)
             outputPaths fs1).2
      | Some _ => []
      end ++ post
    ∧ count_events is_copy pre = 0
    ∧ count_events is_copy post = 0.
Proof.
  intros Hc. rewrite i18n_run, inline_and_copy_run, Hc. cbv zeta.
  pose proof (consume_all_kinds _ _ _ _ _ _ _ _ _ _ Hc) as Hk1.
  pose proof (count_events_none is_copy consume_event _
                ltac:(by intros []) Hk1) as H1.
  pose proof (count_events_none is_copy stream_event _
                ltac:(by intros []) (stream_events (inlineAll i18n options).1)) as H2.
  exists (ExecutorNew :: SpinnerStart (Some "Generating localized bundles...")
          :: t1 ++ ExecutorInlineAll options
               :: flat_map result_events (inlineAll i18n options).1).
  assert (count_events is_copy
    (ExecutorNew :: SpinnerStart (Some "Generating localized bundles...")
      :: t1 ++ ExecutorInlineAll options
           :: flat_map result_events (inlineAll i18n options).1) = 0) as Hpre.
  { cbn [count_events is_copy]. rewrite count_events_app.
    cbn [count_events is_copy]. by rewrite H1, H2. }
  destruct (inlineAll i18n options).2 as [err|].
  { eexists. split; [|split; [done |]].
    - cbn [snd]. rewrite <- ?app_assoc. cbn [app]. by rewrite <- ?app_assoc.
    - done. }
  destruct (copyAssets emittedPath (path.relative emittedPath <$> files)
              outputPaths fs1) as [[[[]|err] fs2] t3].
  - eexists. split; [|split; [done |]].
    + cbn [snd]. rewrite <- ?app_assoc. cbn [app]. by rewrite <- ?app_assoc.
    + by destruct (existsb has_error _).
  - eexists. split; [|split; [done |]].
    + cbn [snd]. rewrite <- ?app_assoc. cbn [app]. by rewrite <- ?app_assoc.
    + done.
Qed.

(** A copy in the trace of a run is a copy of a file that is listed in the
    emitted directory after consumption and is not a consumed path. *)
Lemma run_copy_inv (fs fs1 : FS) (options : list InlineOptions)
    (files : list string) (t1 : list Event) (src dest : string) :
  consume_all'' fs = (Ok (options, files), fs1, t1) →
  FsCopy src dest ∈ (run'' fs).2 →
  ∃ g base,
    g ∈ copied_names emittedPath (path.relative emittedPath <$> files) fs1
    ∧ base ∈ outputPaths
    ∧ src = path.join emittedPath g ∧ dest = path.join base g.
Proof.
  intros Hc Hin. destruct (run_trace_copy _ _ _ _ _ Hc) as (pre & post & Ht & Hpre & Hpost).
  rewrite Ht in Hin. apply elem_of_app in Hin as [Hin|Hin].
  { by apply (count_events_zero _ _ _ Hpre) in Hin. }
  apply elem_of_app in Hin as [Hin|Hin].
  2:{ by apply (count_events_zero _ _ _ Hpost) in Hin. }
  destruct (inlineAll i18n options).2 as [err|].
  { by apply elem_of_nil in Hin. }
  destruct (copyAssets_trace emittedPath (path.relative emittedPath <$> files)
              outputPaths fs1) as (t' & Ht' & Hsub & _).
  rewrite Ht' in Hin. apply elem_of_cons in Hin as [?|Hin]; [done |].
  apply Hsub, elem_of_copy_events in Hin as (g & base & Hg & Hb & [= -> ->]).
  by exists g, base.
Qed.

(** No consumed path is the source of a copy. *)
Lemma run_copy_not_consumed (fs fs1 : FS) (options : list InlineOptions)
    (files : list string) (t1 : list Event) (p dest : string) :
  consume_all'' fs = (Ok (options, files), fs1, t1) →
  p ∈ files → FsCopy p dest ∉ (run'' fs).2.
Proof.
  intros Hc Hp Hin.
  destruct (run_copy_inv _ _ _ _ _ _ _ Hc Hin) as (g & base & Hg & _ & -> & _).
  apply elem_of_copied_names in Hg as [Hg _]. apply Hg.
  apply list_elem_of_fmap. exists (path.join emittedPath g).
  split; [by rewrite relative_join | done].
Qed.


(** C10. In every run of the consumption, also one that throws, each
    [unlinkSync] comes after the push of its path on [originalFiles]. When
    the consumption completes, [originalFiles] holds the pushed paths: the
    path of every file that was not skipped, and the path of the map of
    every request that carries one; and none of these paths is the source
    of a copy in the run, whether or not its unlink succeeded. *)
Theorem consumed_paths_pushed_before_unlink (fs : FS) :
  (∀ r fs1 t1,
     emittedFilesToInlineOptions scriptsEntryPointName emittedPath
       baseOutputPath es5' missingTranslation' emittedFiles fs = (r, fs1, t1) →
     ∀ ta tb p, t1 = ta ++ FsUnlink p :: tb → ArrPush p ∈ ta)
  ∧ (∀ options files fs1 t1,
     emittedFilesToInlineOptions scriptsEntryPointName emittedPath
       baseOutputPath es5' missingTranslation' emittedFiles fs
     = (Ok (options, files), fs1, t1) →
     files = pushes t1
     ∧ (∀ e, e ∈ emittedFiles → skipped scriptsEntryPointName e = false →
          path.join emittedPath (file e) ∈ files)
     ∧ (∀ o, o ∈ options → is_Some (map o) →
          path.join emittedPath (filename o) +:+ ".map" ∈ files)
     ∧ (∀ p dest, p ∈ files →
          FsCopy p dest ∉
            (i18nInlineEmittedFiles I18nOptions inlineAll i18n emittedFiles
               baseOutputPath outputPaths scriptsEntryPointName emittedPath
               es5' missingTranslation' fs).2)).
Proof.
  split.
  - intros r fs1 t1 Hc ta tb p Ht. unfold emittedFilesToInlineOptions in Hc.
    apply loop_consumed_ok in Hc as (_ & _ & Hu & _).
    destruct (unlink_after_push_spec [] t1 ta tb p Hu Ht) as [Hin|Hin]; [|done].
    by apply elem_of_nil in Hin.
  - intros options files fs1 t1 Hc. pose proof Hc as Hc'.
    unfold emittedFilesToInlineOptions in Hc'.
    apply loop_values in Hc' as (-> & news & -> & Hall).
    apply request_for_pushed in Hall as [He Ho].
    split; [done |]. split; [|split].
    + intros e Hin Hs. apply He. unfold kept.
      by apply list_elem_of_filter.
    + done.
    + intros p dest Hp. by eapply run_copy_not_consumed.
Qed.



End Coverage.

(** The build whose [main.js] cannot be unlinked: the file stays in the
    emitted directory, its path is consumed all the same and is not
    copied. *)
Lemma consumed_paths_pushed_before_unlink_witness :
  Scenario.disk_stuck !! "tmp/main.js" = Some (mkFile "M" None (Some Scenario.EPERM))
  ∧ (∀ p dest, p ∈ ["tmp/main.js"] →
       FsCopy p dest ∉
         (i18nInlineEmittedFiles unit Scenario.quiet ()
            [Scenario.main_js; Scenario.styles_css] "out" ["fr"; "de"] [] "tmp"
            false None Scenario.disk_stuck).2).
Proof.
  split; [vm_compute; reflexivity |].
  refine (proj2 (proj2 (proj2 (proj2 (consumed_paths_pushed_before_unlink
    unit Scenario.quiet () [Scenario.main_js; Scenario.styles_css] "out"
    ["fr"; "de"] [] "tmp" false None Scenario.disk_stuck)
    [mkInline "main.js" "M" None false "out" None true]
    ["tmp/main.js"] Scenario.disk_stuck
    [FsRead "tmp/main.js"; ArrPush "tmp/main.js"; FsUnlink "tmp/main.js";
     LogDebug (unable_to_delete "tmp/main.js" Scenario.EPERM);
     FsRead "tmp/main.js.map";
     LogDebug "i18n file queued for processing: main.js"] _)))).
  vm_compute. reflexivity.
Defined.


(** * Further properties of the two functions *)

(** ** What the requests carry *)

(** X1. When consumption completes, each request carries the name of its
    file, the text that file had on disk when the function was called, the
    caller's [es5], output path and missing-translation policy unchanged,
    and, when it has a map, the text the map file had on disk. *)
Theorem requests_carry_text_and_options (scriptsEntryPointName : list string)
    (emittedPath out : string) (es5' : bool) (mt : option MissingTranslation)
    (l : list EmittedFiles) (fs fs' : FS) (options : list InlineOptions)
    (files : list string) (t : list Event) :
  emittedFilesToInlineOptions scriptsEntryPointName emittedPath out es5' mt l fs
  = (Ok (options, files), fs', t) →
  Forall2 (λ o e,
      filename o = file e
      ∧ read fs (path.join emittedPath (file e)) = Ok (code o)
      ∧ es5 o = es5' ∧ outputPath o = out ∧ missingTranslation o = mt
      ∧ ∀ m, map o = Some m →
          read fs (path.join emittedPath (file e) +:+ ".map") = Ok m)
    options (kept scriptsEntryPointName l).
Proof.
  intros Hrun. unfold emittedFilesToInlineOptions in Hrun.
  apply loop_values in Hrun as (_ & news & -> & Hall).
  change ([] ++ news) with news.
  eapply Forall2_impl; [done |].
  intros o e (c & m & -> & Hc & _ & Hm). cbn.
  repeat (split; [done |]). intros text Ht. by destruct (Hm text Ht).
Qed.

Lemma requests_carry_text_and_options_witness :
  Forall2 (λ o e,
      filename o = file e
      ∧ read Scenario.disk (path.join "tmp" (file e)) = Ok (code o)
      ∧ es5 o = true ∧ outputPath o = "out" ∧ missingTranslation o = Some MTWarning
      ∧ ∀ m, map o = Some m →
          read Scenario.disk (path.join "tmp" (file e) +:+ ".map") = Ok m)
    [mkInline "main.js" "M" (Some "MM") true "out" (Some MTWarning) true]
    (kept ["runtime"]
       [Scenario.main_js; Scenario.styles_css; Scenario.runtime_js]).
Proof.
  refine (requests_carry_text_and_options ["runtime"] "tmp" "out" true
    (Some MTWarning)
    [Scenario.main_js; Scenario.styles_css; Scenario.runtime_js]
    Scenario.disk
    (delete "tmp/main.js.map" (delete "tmp/main.js" Scenario.disk))
    _ ["tmp/main.js"; "tmp/main.js.map"]
    [FsRead "tmp/main.js"; ArrPush "tmp/main.js"; FsUnlink "tmp/main.js";
     FsRead "tmp/main.js.map"; ArrPush "tmp/main.js.map";
     FsUnlink "tmp/main.js.map";
     LogDebug "i18n file queued for processing: main.js"] _).
  vm_compute. reflexivity.
Defined.

(** ** Nothing to inline *)

(** X2. When every emitted file is skipped (the list may be empty),
    consumption returns no request and no consumed path, leaves the file
    system as it is and performs no read, unlink or log. *)
Theorem nothing_eligible_no_effect (scriptsEntryPointName : list string)
    (emittedPath out : string) (es5' : bool) (mt : option MissingTranslation)
    (l : list EmittedFiles) (fs : FS) :
  Forall (λ e, skipped scriptsEntryPointName e = true) l →
  emittedFilesToInlineOptions scriptsEntryPointName emittedPath out es5' mt l fs
  = (Ok ([], []), fs, []).
Proof.
  intros Hall. unfold emittedFilesToInlineOptions.
  induction Hall as [|e rest He _ IH]; [done |].
  by rewrite loop_cons, He.
Qed.

Lemma nothing_eligible_no_effect_witness :
  emittedFilesToInlineOptions ["runtime"] "tmp" "out" false None
    [Scenario.styles_css; Scenario.runtime_js] Scenario.disk
  = (Ok ([], []), Scenario.disk, []).
Proof.
  apply nothing_eligible_no_effect.
  repeat constructor.
Defined.

(** ** What consumption does to the disk *)

(** X3. Whatever its outcome, consumption never creates or changes a
    file: every path either holds what it held before or holds nothing,
    and a path that was not pushed on [originalFiles] holds what it held
    before. *)
Theorem consumption_only_removes_consumed (scriptsEntryPointName : list string)
    (emittedPath out : string) (es5' : bool) (mt : option MissingTranslation)
    (l : list EmittedFiles) (fs fs' : FS)
    (r : Outcome (list InlineOptions * list string)) (t : list Event) :
  emittedFilesToInlineOptions scriptsEntryPointName emittedPath out es5' mt l fs
  = (r, fs', t) →
  ∀ k, (fs' !! k = fs !! k ∨ fs' !! k = None)
       ∧ (k ∉ pushes t → fs' !! k = fs !! k).
Proof.
  intros Hrun k. unfold emittedFilesToInlineOptions in Hrun.
  apply loop_consumed_ok in Hrun as (F & _).
  destruct (F k) as [Hk|[Hk Hin]].
  - split; [by left | done].
  - split; [by right | by intros Hnot].
Qed.

Lemma consumption_only_removes_consumed_witness :
  (delete "tmp/main.js.map" (delete "tmp/main.js" Scenario.disk)) !! "tmp/styles.css"
  = Scenario.disk !! "tmp/styles.css".
Proof.
  refine (proj2 (consumption_only_removes_consumed ["runtime"] "tmp" "out" false
    None [Scenario.main_js; Scenario.styles_css; Scenario.runtime_js]
    Scenario.disk
    (delete "tmp/main.js.map" (delete "tmp/main.js" Scenario.disk))
    (Ok ([mkInline "main.js" "M" (Some "MM") false "out" None true],
         ["tmp/main.js"; "tmp/main.js.map"]))
    [FsRead "tmp/main.js"; ArrPush "tmp/main.js"; FsUnlink "tmp/main.js";
     FsRead "tmp/main.js.map"; ArrPush "tmp/main.js.map";
     FsUnlink "tmp/main.js.map";
     LogDebug "i18n file queued for processing: main.js"] _ "tmp/styles.css") _).
  - vm_compute. reflexivity.
  - vm_compute. intros H. repeat (apply elem_of_cons in H as [H|H]; [discriminate |]).
    by apply elem_of_nil in H.
Defined.

(** ** The shape of a completed consumption *)

Lemma after_unlink_quiet (fs : FS) (p : string) :
  pushes (after_unlink fs p).2 = [] ∧ reads (after_unlink fs p).2 = [].
Proof.
  by destruct (after_unlink_cases fs p) as [(x & _ & ->)|(_ & _ & ->)].
Qed.

Lemma unlink_deletable (fs : FS) (p : string) :
  deletable fs → is_Some (fs !! p) → after_unlink fs p = (delete p fs, [FsUnlink p]).
Proof.
  intros Hd [f Hf]. unfold after_unlink, unlink.
  by rewrite Hf, (Hd p f Hf).
Qed.

Lemma deletable_frame (fs fs' : FS) (pushed : list string) :
  (∀ k, fs' !! k = fs !! k ∨ (fs' !! k = None ∧ k ∈ pushed)) →
  deletable fs → deletable fs'.
Proof.
  intros F Hd k f Hk. destruct (F k) as [Heq|[Hn _]]; [|congruence].
  apply (Hd k). by rewrite <- Heq.
Qed.

Section ConsumeShape.

Variable scriptsEntryPointName : list string.
Variable emittedPath : string.
Variable outputPath' : string.
Variable es5' : bool.
Variable missingTranslation' : option MissingTranslation.

#[local] Abbreviation consume3 :=
  (consume emittedPath outputPath' es5' missingTranslation').
#[local] Abbreviation loop3 :=
  (consume_loop scriptsEntryPointName emittedPath outputPath' es5' missingTranslation').

(** A loop body that completes: the request, the paths and the reads. *)
Lemma consume_Ok_shape (e : EmittedFiles) (options options' : list InlineOptions)
    (originalFiles originalFiles' : list string) (fs fs' : FS) (t : list Event) :
  let p := path.join emittedPath (file e) in
  consume3 e options originalFiles fs = (Ok (options', originalFiles'), fs', t) →
  ∃ o, options' = options ++ [o]
    ∧ filename o = file e
    ∧ originalFiles' = originalFiles ++ consumed_of emittedPath o
    ∧ pushes t = consumed_of emittedPath o
    ∧ reads t = [p; p +:+ ".map"]
    ∧ (deletable fs → ∀ k, k ∈ consumed_of emittedPath o → fs' !! k = None).
Proof.
  intros p. rewrite consume_run. fold p. cbv zeta. set (mp := p +:+ ".map").
  destruct (read fs p) as [c|err] eqn:Hr; [|done].
  pose proof Hr as (f & Hp & _ & _)%read_Ok.
  destruct (after_unlink_quiet fs p) as [N1 R1].
  pose proof (unlink_deletable fs p) as D1.
  set (fs1 := (after_unlink fs p).1) in *. set (t1 := (after_unlink fs p).2) in *.
  destruct (read fs1 mp) as [m|err] eqn:Hm.
  - pose proof Hm as (fm & Hmp & _ & _)%read_Ok.
    destruct (after_unlink_quiet fs1 mp) as [N2 R2].
    pose proof (unlink_deletable fs1 mp) as D2.
    intros [= <- <- <- <-].
    exists (request outputPath' es5' missingTranslation' e c (Some m)).
    split; [done |]. split; [done |]. split; [done |]. split; [|split].
    + change (pushes (FsRead p :: ArrPush p :: ?u)) with (p :: pushes u).
      rewrite pushes_app, N1.
      change (pushes (FsRead mp :: ArrPush mp :: ?u)) with (mp :: pushes u).
      by rewrite pushes_app, N2.
    + change (reads (FsRead p :: ArrPush p :: ?u)) with (p :: reads u).
      unfold reads in *. rewrite omap_app, R1.
      change (omap ?g (FsRead mp :: ArrPush mp :: ?u)) with (mp :: omap g u).
      by rewrite omap_app, R2.
    + intros Hd k Hk.
      assert (fs1 = delete p fs) as Hfs1.
      { unfold fs1. by rewrite (D1 Hd (mk_is_Some _ _ Hp)). }
      assert (deletable fs1) as Hd1.
      { intros k' f' Hk'. rewrite Hfs1 in Hk'.
        apply lookup_delete_Some in Hk' as [_ Hk']. by apply (Hd k'). }
      rewrite (D2 Hd1 (mk_is_Some _ _ Hmp)). cbn [fst].
      apply elem_of_cons in Hk as [->|Hk].
      * cbn. fold p. rewrite lookup_delete_ne by apply map_path_ne.
        rewrite Hfs1. apply lookup_delete_eq.
      * apply list_elem_of_singleton in Hk as ->. cbn. fold p mp.
        apply lookup_delete_eq.
  - case_bool_decide; [|done]. intros [= <- <- <- <-].
    exists (request outputPath' es5' missingTranslation' e c None).
    split; [done |]. split; [done |]. split; [done |]. split; [|split].
    + change (pushes (FsRead p :: ArrPush p :: ?u)) with (p :: pushes u).
      by rewrite pushes_app, N1.
    + change (reads (FsRead p :: ArrPush p :: ?u)) with (p :: reads u).
      unfold reads in *. by rewrite omap_app, R1.
    + intros Hd k ->%list_elem_of_singleton. cbn. fold p.
      unfold fs1. rewrite (D1 Hd (mk_is_Some _ _ Hp)). apply lookup_delete_eq.
Qed.

(** A loop that completes: the requests, the paths, the reads, and on a
    disk where every unlink succeeds, what is left of the consumed paths. *)
Lemma loop_Ok_shape (l : list EmittedFiles) (options options' : list InlineOptions)
    (originalFiles originalFiles' : list string) (fs fs' : FS) (t : list Event) :
  loop3 l options originalFiles fs = (Ok (options', originalFiles'), fs', t) →
  ∃ news, options' = options ++ news
    ∧ originalFiles' = originalFiles ++ (news ≫= consumed_of emittedPath)
    ∧ pushes t = news ≫= consumed_of emittedPath
    ∧ reads t
      = kept scriptsEntryPointName l ≫=
          (λ e, [path.join emittedPath (file e);
                 path.join emittedPath (file e) +:+ ".map"])
    ∧ (deletable fs → NoDup (pushes t) ∧ ∀ k, k ∈ pushes t → fs' !! k = None).
Proof.
  revert options originalFiles fs t.
  induction l as [|e rest IH]; intros options originalFiles fs t.
  - intros [= <- <- <- <-]. exists []. rewrite !app_nil_r.
    repeat (split; [done |]). intros _. split; [constructor |].
    intros k Hk. by apply elem_of_nil in Hk.
  - rewrite loop_cons. destruct (skipped scriptsEntryPointName e) eqn:Hs.
    { unfold kept. rewrite filter_cons_False by (by rewrite Hs). apply IH. }
    unfold kept. rewrite filter_cons_True by done. fold (kept scriptsEntryPointName rest).
    destruct (consume3 e options originalFiles fs)
      as [[[[o f]|err] fs1] t1] eqn:Hc; [|done].
    destruct (loop3 rest o f fs1) as [[r2 fs2] t2] eqn:Hl.
    intros [= -> <- <-].
    pose proof (consume_consumed_ok _ _ _ _ _ _ _ _ _ _ _ Hc) as (F1 & _).
    pose proof (loop_consumed_ok _ _ _ _ _ _ _ _ _ _ _ _ Hl) as (F2 & P2 & _).
    apply consume_Ok_shape in Hc as (o1 & -> & Hname & -> & Hp1 & Hr1 & Hgone1).
    apply IH in Hl as (news & -> & -> & Hp2 & Hr2 & Hgone2).
    exists (o1 :: news). rewrite bind_cons.
    split; [by rewrite <- app_assoc |]. split; [by rewrite <- !app_assoc |].
    split; [by rewrite pushes_app, Hp1, Hp2 |]. split.
    + unfold reads in *. by rewrite omap_app, Hr1, Hr2, bind_cons.
    + intros Hd. destruct (Hgone2 (deletable_frame _ _ _ F1 Hd)) as [Hnd2 Hg2].
      rewrite pushes_app. split.
      * apply NoDup_app. split; [|split; [|done]].
        -- rewrite Hp1. unfold consumed_of. destruct (map o1).
           ++ apply NoDup_cons. split; [|apply NoDup_singleton].
              intros H%list_elem_of_singleton. symmetry in H.
              by apply map_path_ne in H.
           ++ apply NoDup_singleton.
        -- intros k Hk1 Hk2. destruct (P2 k Hk2) as [[x Hx] _].
           rewrite Hp1 in Hk1. by rewrite (Hgone1 Hd k Hk1) in Hx.
      * intros k [Hk|Hk]%elem_of_app; [|by apply Hg2].
        rewrite Hp1 in Hk. destruct (F2 k) as [->|[-> _]]; [|done].
        by apply Hgone1.
Qed.

End ConsumeShape.

(** X4. When consumption completes, [originalFiles] is determined by the
    requests: for each request in order, the joined path of its file,
    followed by that path with [.map] exactly when the request carries a
    map. *)
Theorem consumed_paths_of_requests (scriptsEntryPointName : list string)
    (emittedPath out : string) (es5' : bool) (mt : option MissingTranslation)
    (l : list EmittedFiles) (fs fs' : FS) (options : list InlineOptions)
    (files : list string) (t : list Event) :
  emittedFilesToInlineOptions scriptsEntryPointName emittedPath out es5' mt l fs
  = (Ok (options, files), fs', t) →
  files = options ≫= consumed_of emittedPath.
Proof.
  intros Hrun. unfold emittedFilesToInlineOptions in Hrun.
  by apply loop_Ok_shape in Hrun as (news & -> & -> & _).
Qed.

Lemma consumed_paths_of_requests_witness :
  ["tmp/main.js"; "tmp/main.js.map"; "tmp/runtime.js"]
  = [mkInline "main.js" "M" (Some "MM") false "out" None true;
     mkInline "runtime.js" "R" None false "out" None false]
    ≫= consumed_of "tmp".
Proof.
  refine (consumed_paths_of_requests [] "tmp" "out" false None
    [Scenario.main_js; Scenario.styles_css; Scenario.runtime_js]
    Scenario.disk
    (delete "tmp/runtime.js"
      (delete "tmp/main.js.map" (delete "tmp/main.js" Scenario.disk)))
    _ _
    [FsRead "tmp/main.js"; ArrPush "tmp/main.js"; FsUnlink "tmp/main.js";
     FsRead "tmp/main.js.map"; ArrPush "tmp/main.js.map";
     FsUnlink "tmp/main.js.map";
     LogDebug "i18n file queued for processing: main.js";
     FsRead "tmp/runtime.js"; ArrPush "tmp/runtime.js"; FsUnlink "tmp/runtime.js";
     FsRead "tmp/runtime.js.map";
     LogDebug "i18n file queued for processing: runtime.js"] _).
  vm_compute. reflexivity.
Defined.

(** X5. On a disk where [unlinkSync] succeeds on every file, a
    consumption that completes has consumed each path once: no path
    appears twice on [originalFiles], and none of these paths is left on
    disk. *)
Theorem consumed_once_and_gone (scriptsEntryPointName : list string)
    (emittedPath out : string) (es5' : bool) (mt : option MissingTranslation)
    (l : list EmittedFiles) (fs fs' : FS) (options : list InlineOptions)
    (files : list string) (t : list Event) :
  deletable fs →
  emittedFilesToInlineOptions scriptsEntryPointName emittedPath out es5' mt l fs
  = (Ok (options, files), fs', t) →
  NoDup files ∧ ∀ p, p ∈ files → fs' !! p = None.
Proof.
  intros Hd Hrun. unfold emittedFilesToInlineOptions in Hrun.
  apply loop_Ok_shape in Hrun as (news & _ & -> & Hp & _ & Hgone).
  change ([] ++ ?u) with u. rewrite <- Hp. by apply Hgone.
Qed.

Lemma deletable_disk : deletable Scenario.disk.
Proof.
  intros k f. unfold Scenario.disk.
  rewrite !lookup_insert, lookup_empty.
  repeat case_decide; by intros [= <-].
Qed.

Lemma consumed_once_and_gone_witness :
  NoDup ["tmp/main.js"; "tmp/main.js.map"; "tmp/runtime.js"]
  ∧ ∀ p, p ∈ ["tmp/main.js"; "tmp/main.js.map"; "tmp/runtime.js"] →
      (delete "tmp/runtime.js"
        (delete "tmp/main.js.map" (delete "tmp/main.js" Scenario.disk))) !! p
      = None.
Proof.
  refine (consumed_once_and_gone [] "tmp" "out" false None
    [Scenario.main_js; Scenario.styles_css; Scenario.runtime_js]
    Scenario.disk _
    [mkInline "main.js" "M" (Some "MM") false "out" None true;
     mkInline "runtime.js" "R" None false "out" None false]
    _
    [FsRead "tmp/main.js"; ArrPush "tmp/main.js"; FsUnlink "tmp/main.js";
     FsRead "tmp/main.js.map"; ArrPush "tmp/main.js.map";
     FsUnlink "tmp/main.js.map";
     LogDebug "i18n file queued for processing: main.js";
     FsRead "tmp/runtime.js"; ArrPush "tmp/runtime.js"; FsUnlink "tmp/runtime.js";
     FsRead "tmp/runtime.js.map";
     LogDebug "i18n file queued for processing: runtime.js"] deletable_disk _).
  vm_compute. reflexivity.
Defined.

(** X6. A consumption that completes has read, for each file that is not
    skipped and in the order of the list, the path of the file and then
    that path with [.map], and nothing else: a skipped file is never
    read, and the map is looked for once for every file that is not
    skipped. *)
Theorem reads_of_consumption (scriptsEntryPointName : list string)
    (emittedPath out : string) (es5' : bool) (mt : option MissingTranslation)
    (l : list EmittedFiles) (fs fs' : FS) (options : list InlineOptions)
    (files : list string) (t : list Event) :
  emittedFilesToInlineOptions scriptsEntryPointName emittedPath out es5' mt l fs
  = (Ok (options, files), fs', t) →
  reads t
  = kept scriptsEntryPointName l ≫=
      (λ e, [path.join emittedPath (file e);
             path.join emittedPath (file e) +:+ ".map"]).
Proof.
  intros Hrun. unfold emittedFilesToInlineOptions in Hrun.
  by apply loop_Ok_shape in Hrun as (news & _ & _ & _ & Hr & _).
Qed.

Lemma reads_of_consumption_witness :
  reads
    [FsRead "tmp/main.js"; ArrPush "tmp/main.js"; FsUnlink "tmp/main.js";
     FsRead "tmp/main.js.map"; ArrPush "tmp/main.js.map";
     FsUnlink "tmp/main.js.map";
     LogDebug "i18n file queued for processing: main.js"]
  = kept ["runtime"] [Scenario.main_js; Scenario.styles_css; Scenario.runtime_js]
    ≫= (λ e, [path.join "tmp" (file e); path.join "tmp" (file e) +:+ ".map"]).
Proof.
  refine (reads_of_consumption ["runtime"] "tmp" "out" false None
    [Scenario.main_js; Scenario.styles_css; Scenario.runtime_js]
    Scenario.disk
    (delete "tmp/main.js.map" (delete "tmp/main.js" Scenario.disk))
    [mkInline "main.js" "M" (Some "MM") false "out" None true]
    ["tmp/main.js"; "tmp/main.js.map"] _ _).
  vm_compute. reflexivity.
Defined.

(** ** The run, case by case *)

Lemma omap_none {A} (f : Event → option A) (kind : Event → bool) (t : list Event) :
  (∀ ev, kind ev = true → f ev = None) →
  Forall (λ ev, kind ev = true) t → omap f t = [].
Proof.
  intros Hf Ht. induction Ht as [|ev t Hev _ IH]; [done |].
  cbn [omap list_omap]. rewrite (Hf ev Hev). apply IH.
Qed.

Lemma elem_of_kind (kind : Event → bool) (t : list Event) (ev : Event) :
  Forall (λ ev, kind ev = true) t → ev ∈ t → kind ev = true.
Proof. intros Ht Hev. by apply (proj1 (Forall_forall _ _) Ht). Qed.

Lemma existsb_Permutation {A} (f : A → bool) (l l' : list A) :
  l ≡ₚ l' → existsb f l = existsb f l'.
Proof.
  intros H. induction H as [|x l l' _ IH|x y l|l l' l'' _ IH1 _ IH2].
  - done.
  - cbn. by rewrite IH.
  - cbn. by destruct (f x), (f y).
  - by rewrite IH1.
Qed.

Section RunCases.

Variable I18nOptions : Type.
Variable inlineAll : I18nOptions → list InlineOptions →
                     list TransformResult * option JsError.
Variable i18n : I18nOptions.
Variable emittedFiles : list EmittedFiles.
Variable baseOutputPath : string.
Variable outputPaths : list string.
Variable scriptsEntryPointName : list string.
Variable emittedPath : string.
Variable es5' : bool.
Variable missingTranslation' : option MissingTranslation.

#[local] Abbreviation consume_all4 :=
  (emittedFilesToInlineOptions scriptsEntryPointName emittedPath
     baseOutputPath es5' missingTranslation' emittedFiles).
#[local] Abbreviation run4 :=
  (i18nInlineEmittedFiles I18nOptions inlineAll i18n emittedFiles baseOutputPath
     outputPaths scriptsEntryPointName emittedPath es5' missingTranslation').
#[local] Abbreviation starting :=
  [ExecutorNew; SpinnerStart (Some "Generating localized bundles...")].
#[local] Abbreviation failing err :=
  [SpinnerFail ("Localized bundle generation failed: " +:+ err_message err);
   ExecutorStop].

(** The four ways a run ends, with the file system it leaves and its
    trace: consumption throws, the executor throws, the copy throws, or
    the block completes. *)
Lemma run_cases (fs : FS) :
  match consume_all4 fs with
  | (Throw err, fs1, t1) =>
      run4 fs = (Ok false, fs1, starting ++ t1 ++ failing err)
  | (Ok (options, files), fs1, t1) =>
      let results := (inlineAll i18n options).1 in
      let t2 := ExecutorInlineAll options :: flat_map result_events results in
      Forall (λ ev, consume_event ev = true) t1
      ∧ match (inlineAll i18n options).2 with
        | Some err =>
            run4 fs = (Ok false, fs1, starting ++ t1 ++ t2 ++ failing err)
        | None =>
            match copyAssets emittedPath (path.relative emittedPath <$> files)
                    outputPaths fs1 with
            | (Ok _, fs2, t3) =>
                Forall (λ ev, is_copy ev = true) t3
                ∧ run4 fs
                  = (Ok (negb (existsb has_error results)), fs2,
                     starting ++ t1 ++ t2 ++ t3 ++
                     [ExecutorStop;
                      if existsb has_error results
                      then SpinnerFail "Localized bundle generation failed."
                      else SpinnerSucceed "Localized bundle generation complete."])
            | (Throw err, fs2, t3) =>
                Forall (λ ev, is_copy ev = true) t3
                ∧ run4 fs
                  = (Ok false, fs2, starting ++ t1 ++ t2 ++ t3 ++ failing err)
            end
        end
  end.
Proof.
  rewrite i18n_run, inline_and_copy_run.
  destruct (consume_all4 fs) as [[[[options files]|err] fs1] t1] eqn:Hc; [|done].
  cbv zeta. split; [by eapply consume_all_kinds |].
  destruct (inlineAll i18n options).2 as [err|].
  { cbn [app]. by rewrite <- !app_assoc. }
  pose proof (copy_events_kind emittedPath
    (path.relative emittedPath <$> files) outputPaths fs1) as Hk3.
  destruct (copyAssets emittedPath (path.relative emittedPath <$> files)
              outputPaths fs1) as [[[[]|err] fs2] t3]; cbn [snd] in Hk3.
  - split; [done |]. cbn [app]. rewrite <- !app_assoc. cbn [app].
    by rewrite <- ?app_assoc.
  - split; [done |]. cbn [app]. rewrite <- !app_assoc. cbn [app].
    by rewrite <- ?app_assoc.
Qed.

End RunCases.

Lemma kind_count_parts (kind : Event → bool) (options : list InlineOptions)
    (results : list TransformResult) (t0 t1 t3 tail : list Event) :
  (∀ ev, consume_event ev = true → kind ev = false) →
  (∀ ev, stream_event ev = true → kind ev = false) →
  (∀ ev, is_copy ev = true → kind ev = false) →
  Forall (λ ev, consume_event ev = true) t1 →
  Forall (λ ev, is_copy ev = true) t3 →
  count_events kind
    (t0 ++ t1 ++ (ExecutorInlineAll options :: flat_map result_events results)
        ++ t3 ++ tail)
  = count_events kind t0
    + (if kind (ExecutorInlineAll options) then 1 else 0)
    + count_events kind tail.
Proof.
  intros H1 H2 H3 Hk1 Hk3. rewrite !count_events_app. cbn [count_events].
  rewrite (count_events_none kind consume_event t1 H1 Hk1).
  rewrite (count_events_none kind stream_event _ H2 (stream_events results)).
  rewrite (count_events_none kind is_copy t3 H3 Hk3). lia.
Qed.

Lemma kind_elem_parts (kind : Event → bool) (options : list InlineOptions)
    (results : list TransformResult) (t0 t1 t3 tail : list Event) (ev : Event) :
  (∀ ev, consume_event ev = true → kind ev = false) →
  (∀ ev, stream_event ev = true → kind ev = false) →
  (∀ ev, is_copy ev = true → kind ev = false) →
  Forall (λ ev, consume_event ev = true) t1 →
  Forall (λ ev, is_copy ev = true) t3 →
  kind ev = true →
  ev ∈ t0 ++ t1 ++ (ExecutorInlineAll options :: flat_map result_events results)
          ++ t3 ++ tail →
  ev ∈ t0 ∨ ev = ExecutorInlineAll options ∨ ev ∈ tail.
Proof.
  intros H1 H2 H3 Hk1 Hk3 Hev Hin.
  apply elem_of_app in Hin as [Hin|Hin]; [by left |].
  apply elem_of_app in Hin as [Hin|Hin].
  { apply (elem_of_kind _ _ _ Hk1), H1 in Hin. congruence. }
  apply elem_of_app in Hin as [Hin|Hin].
  { apply elem_of_cons in Hin as [->|Hin]; [by right; left |].
    apply (elem_of_kind _ _ _ (stream_events results)), H2 in Hin. congruence. }
  apply elem_of_app in Hin as [Hin|Hin]; [|by right; right].
  apply (elem_of_kind _ _ _ Hk3), H3 in Hin. congruence.
Qed.

Section RunProperties.

Variable I18nOptions : Type.
Variable inlineAll : I18nOptions → list InlineOptions →
                     list TransformResult * option JsError.
Variable i18n : I18nOptions.
Variable emittedFiles : list EmittedFiles.
Variable baseOutputPath : string.
Variable outputPaths : list string.
Variable scriptsEntryPointName : list string.
Variable emittedPath : string.
Variable es5' : bool.
Variable missingTranslation' : option MissingTranslation.

#[local] Abbreviation consume_all5 :=
  (emittedFilesToInlineOptions scriptsEntryPointName emittedPath
     baseOutputPath es5' missingTranslation' emittedFiles).
#[local] Abbreviation run5 :=
  (i18nInlineEmittedFiles I18nOptions inlineAll i18n emittedFiles baseOutputPath
     outputPaths scriptsEntryPointName emittedPath es5' missingTranslation').

(** X7. The spinner is closed exactly once in every run, by [succeed] or
    by [fail]; the function returns [true] exactly when the closing line
    is the success line, and every failure line comes with [false]. *)
Theorem spinner_closed_once (fs : FS) :
  ∃ b fs' t,
    i18nInlineEmittedFiles I18nOptions inlineAll i18n emittedFiles baseOutputPath
      outputPaths scriptsEntryPointName emittedPath es5' missingTranslation' fs
    = (Ok b, fs', t)
    ∧ count_events is_spinner_end t = 1
    ∧ (b = true ↔ SpinnerSucceed "Localized bundle generation complete." ∈ t)
    ∧ (∀ text, SpinnerFail text ∈ t → b = false).
Proof.
  pose proof (run_cases I18nOptions inlineAll i18n emittedFiles baseOutputPath
    outputPaths scriptsEntryPointName emittedPath es5' missingTranslation' fs) as H.
  assert (∀ ev, consume_event ev = true → is_spinner_end ev = false) as K1
    by by intros [].
  assert (∀ ev, stream_event ev = true → is_spinner_end ev = false) as K2
    by by intros [].
  assert (∀ ev, is_copy ev = true → is_spinner_end ev = false) as K3
    by by intros [].
  assert (∀ err t,
    count_events is_spinner_end
      (t ++ [SpinnerFail ("Localized bundle generation failed: " +:+ err_message err);
             ExecutorStop]) = count_events is_spinner_end t + 1) as Htail.
  { intros err t. by rewrite count_events_app. }
  destruct (consume_all5 fs) as [[[[options files]|err] fs1] t1] eqn:Hc.
  - cbv zeta in H. destruct H as [Hk1 H].
    destruct (inlineAll i18n options).2 as [err|].
    { do 3 eexists. split; [exact H |]. split; [|split; [|done]].
      - change (?a ++ t1 ++ ?b ++ ?c) with (a ++ t1 ++ b ++ [] ++ c).
        by rewrite (kind_count_parts is_spinner_end _ _ _ _ [] _ K1 K2 K3 Hk1).
      - split; [done |]. intros Hin.
        change (?a ++ t1 ++ ?b ++ ?c) with (a ++ t1 ++ b ++ [] ++ c) in Hin.
        apply (kind_elem_parts is_spinner_end _ _ _ _ [] _ _ K1 K2 K3 Hk1) in Hin;
          [|done | done].
        destruct Hin as [Hin|[?|Hin]]; [|done |].
        + by repeat (apply elem_of_cons in Hin as [?|Hin]; [done |]);
            apply elem_of_nil in Hin.
        + by repeat (apply elem_of_cons in Hin as [?|Hin]; [done |]);
            apply elem_of_nil in Hin. }
    destruct (copyAssets emittedPath (path.relative emittedPath <$> files)
                outputPaths fs1) as [[[[]|err] fs2] t3].
    + destruct H as [Hk3 H]. do 3 eexists. split; [exact H |].
      split; [|split].
      * rewrite (kind_count_parts is_spinner_end _ _ _ _ _ _ K1 K2 K3 Hk1 Hk3).
        by destruct (existsb has_error _).
      * rewrite negb_true_iff. split.
        -- intros ->. rewrite !elem_of_app. do 4 right.
           apply list_elem_of_further, list_elem_of_here.
        -- intros Hin.
           apply (kind_elem_parts is_spinner_end _ _ _ _ _ _ _ K1 K2 K3 Hk1 Hk3)
             in Hin; [|done].
           destruct Hin as [Hin|[?|Hin]]; [|done |].
           ++ by repeat (apply elem_of_cons in Hin as [?|Hin]; [done |]);
                apply elem_of_nil in Hin.
           ++ destruct (existsb has_error _); [|done].
              by repeat (apply elem_of_cons in Hin as [?|Hin]; [done |]);
                apply elem_of_nil in Hin.
      * intros text Hin. rewrite negb_false_iff.
        apply (kind_elem_parts is_spinner_end _ _ _ _ _ _ _ K1 K2 K3 Hk1 Hk3)
          in Hin; [|done].
        destruct Hin as [Hin|[?|Hin]]; [|done |].
        -- by repeat (apply elem_of_cons in Hin as [?|Hin]; [done |]);
             apply elem_of_nil in Hin.
        -- destruct (existsb has_error _); [done |].
           by repeat (apply elem_of_cons in Hin as [?|Hin]; [done |]);
             apply elem_of_nil in Hin.
    + destruct H as [Hk3 H]. do 3 eexists. split; [exact H |].
      split; [|split; [|done]].
      * by rewrite (kind_count_parts is_spinner_end _ _ _ _ _ _ K1 K2 K3 Hk1 Hk3).
      * split; [done |]. intros Hin.
        apply (kind_elem_parts is_spinner_end _ _ _ _ _ _ _ K1 K2 K3 Hk1 Hk3)
          in Hin; [|done].
        destruct Hin as [Hin|[?|Hin]]; [|done |].
        -- by repeat (apply elem_of_cons in Hin as [?|Hin]; [done |]);
             apply elem_of_nil in Hin.
        -- by repeat (apply elem_of_cons in Hin as [?|Hin]; [done |]);
             apply elem_of_nil in Hin.
  - pose proof (consume_all_kinds _ _ _ _ _ _ _ _ _ _ Hc) as Hk1.
    do 3 eexists. split; [exact H |]. split; [|split; [|done]].
    + rewrite !count_events_app.
      by rewrite (count_events_none is_spinner_end consume_event t1 K1 Hk1).
    + split; [done |]. intros Hin.
      apply elem_of_app in Hin as [Hin|Hin].
      { by repeat (apply elem_of_cons in Hin as [?|Hin]; [done |]);
          apply elem_of_nil in Hin. }
      apply elem_of_app in Hin as [Hin|Hin].
      { by apply (elem_of_kind _ _ _ Hk1) in Hin. }
      by repeat (apply elem_of_cons in Hin as [?|Hin]; [done |]);
        apply elem_of_nil in Hin.
Qed.

(** X8. [executor.inlineAll] is called at most once in a run; it is
    called exactly when consumption completes, and then with the requests
    consumption returned. *)
Theorem inlineAll_called_with_requests (fs : FS) :
  ∃ b fs' t,
    i18nInlineEmittedFiles I18nOptions inlineAll i18n emittedFiles baseOutputPath
      outputPaths scriptsEntryPointName emittedPath es5' missingTranslation' fs
    = (Ok b, fs', t)
    ∧ (count_events is_inline t ≤ 1)%nat
    ∧ ∀ options,
        ExecutorInlineAll options ∈ t ↔
        ∃ files fs1 t1,
          emittedFilesToInlineOptions scriptsEntryPointName emittedPath
            baseOutputPath es5' missingTranslation' emittedFiles fs
          = (Ok (options, files), fs1, t1).
Proof.
  pose proof (run_cases I18nOptions inlineAll i18n emittedFiles baseOutputPath
    outputPaths scriptsEntryPointName emittedPath es5' missingTranslation' fs) as H.
  assert (∀ ev, consume_event ev = true → is_inline ev = false) as K1
    by by intros [].
  assert (∀ ev, stream_event ev = true → is_inline ev = false) as K2
    by by intros [].
  assert (∀ ev, is_copy ev = true → is_inline ev = false) as K3
    by by intros [].
  destruct (consume_all5 fs) as [[[[options files]|err] fs1] t1] eqn:Hc.
  - cbv zeta in H. destruct H as [Hk1 H].
    assert (∀ t3 tail o,
      Forall (λ ev, is_copy ev = true) t3 →
      count_events is_inline tail = 0 →
      let t := [ExecutorNew; SpinnerStart (Some "Generating localized bundles...")]
               ++ t1 ++ (ExecutorInlineAll options
                           :: flat_map result_events (inlineAll i18n options).1)
               ++ t3 ++ tail in
      (count_events is_inline t ≤ 1)%nat
      ∧ (ExecutorInlineAll o ∈ t ↔
         ∃ files' fs1' t1', (Ok (options, files), fs1, t1)
                            = (Ok (o, files'), fs1', t1'))) as Hparts.
    { intros t3 tail o Hk3 Htail. cbv zeta. split.
      - rewrite (kind_count_parts is_inline _ _ _ _ _ _ K1 K2 K3 Hk1 Hk3), Htail.
        cbn. lia.
      - split.
        + intros Hin.
          apply (kind_elem_parts is_inline _ _ _ _ _ _ _ K1 K2 K3 Hk1 Hk3) in Hin;
            [|done].
          destruct Hin as [Hin|[[= ->]|Hin]].
          * by repeat (apply elem_of_cons in Hin as [?|Hin]; [done |]);
              apply elem_of_nil in Hin.
          * by exists files, fs1, t1.
          * by apply (count_events_zero _ _ _ Htail) in Hin.
        + intros (files' & fs1' & t1' & [= <- _ _ _]).
          rewrite !elem_of_app. right. right. left. apply list_elem_of_here. }
    destruct (inlineAll i18n options).2 as [err|].
    { do 3 eexists. split; [exact H |].
      change (?a ++ t1 ++ ?b ++ ?c) with (a ++ t1 ++ b ++ [] ++ c).
      split; [by apply Hparts | intros o; by apply Hparts]. }
    destruct (copyAssets emittedPath (path.relative emittedPath <$> files)
                outputPaths fs1) as [[[[]|err] fs2] t3];
      destruct H as [Hk3 H]; do 3 eexists; (split; [exact H |]).
    + split; [apply Hparts | intros o; apply Hparts]; try done;
        by destruct (existsb has_error _).
    + split; [by apply Hparts | intros o; by apply Hparts].
  - pose proof (consume_all_kinds _ _ _ _ _ _ _ _ _ _ Hc) as Hk1.
    do 3 eexists. split; [exact H |]. split.
    + rewrite !count_events_app.
      rewrite (count_events_none is_inline consume_event t1 K1 Hk1). cbn. lia.
    + intros o. split; [|by intros (? & ? & ? & [=])]. intros Hin.
      apply elem_of_app in Hin as [Hin|Hin].
      { by repeat (apply elem_of_cons in Hin as [?|Hin]; [done |]);
          apply elem_of_nil in Hin. }
      apply elem_of_app in Hin as [Hin|Hin].
      { by apply (elem_of_kind _ _ _ Hk1) in Hin. }
      by repeat (apply elem_of_cons in Hin as [?|Hin]; [done |]);
        apply elem_of_nil in Hin.
Qed.

(** X9. When consumption throws, the function returns [false] and, after
    the events of consumption, only writes the failure line of the spinner,
    with the message of the error that was thrown, and stops the executor:
    [inlineAll] is not called, nothing is copied, and the file system is
    left as consumption left it when it threw, so what was unlinked before
    the throw is not put back. *)
Theorem consumption_failure_ends_the_run (fs fs1 : FS) (t1 : list Event)
    (err : JsError) :
  emittedFilesToInlineOptions scriptsEntryPointName emittedPath
    baseOutputPath es5' missingTranslation' emittedFiles fs
  = (Throw err, fs1, t1) →
  i18nInlineEmittedFiles I18nOptions inlineAll i18n emittedFiles baseOutputPath
    outputPaths scriptsEntryPointName emittedPath es5' missingTranslation' fs
  = (Ok false, fs1,
     [ExecutorNew; SpinnerStart (Some "Generating localized bundles...")]
     ++ t1
     ++ [SpinnerFail ("Localized bundle generation failed: " +:+ err_message err);
         ExecutorStop]).
Proof.
  intros Hc.
  pose proof (run_cases I18nOptions inlineAll i18n emittedFiles baseOutputPath
    outputPaths scriptsEntryPointName emittedPath es5' missingTranslation' fs) as H.
  by rewrite Hc in H.
Qed.

End RunProperties.

(** A build whose [runtime.js] is consumed before [main.js] is found
    missing: [runtime.js] stays unlinked. *)
Lemma consumption_failure_ends_the_run_witness :
  i18nInlineEmittedFiles unit Scenario.quiet ()
    [Scenario.runtime_js; Scenario.main_js; Scenario.styles_css] "out"
    ["fr"; "de"] [] "tmp" false None Aborted.disk_half
  = (Ok false, delete "tmp/runtime.js" Aborted.disk_half,
     [ExecutorNew; SpinnerStart (Some "Generating localized bundles...")]
     ++ [FsRead "tmp/runtime.js"; ArrPush "tmp/runtime.js";
         FsUnlink "tmp/runtime.js"; FsRead "tmp/runtime.js.map";
         LogDebug "i18n file queued for processing: runtime.js";
         FsRead "tmp/main.js"]
     ++ [SpinnerFail
           ("Localized bundle generation failed: "
            +:+ "ENOENT: no such file or directory, open 'tmp/main.js'");
         ExecutorStop]).
Proof.
  apply (consumption_failure_ends_the_run unit Scenario.quiet ()
    [Scenario.runtime_js; Scenario.main_js; Scenario.styles_css] "out"
    ["fr"; "de"] [] "tmp" false None Aborted.disk_half
    (delete "tmp/runtime.js" Aborted.disk_half)
    [FsRead "tmp/runtime.js"; ArrPush "tmp/runtime.js";
     FsUnlink "tmp/runtime.js"; FsRead "tmp/runtime.js.map";
     LogDebug "i18n file queued for processing: runtime.js";
     FsRead "tmp/main.js"]
    (ENOENT "open" "tmp/main.js")).
  vm_compute. reflexivity.
Defined.

(** ** The order of arrival and the channels of the logger *)

(** X10. The boolean returned and the file system left do not depend on
    the order in which the executor yields its results: two executors
    that yield the same results in different orders, and fail or not
    alike, give the same outcome on every input. *)
Theorem outcome_independent_of_arrival_order (I18nOptions : Type)
    (inlineAll inlineAll' : I18nOptions → list InlineOptions →
                            list TransformResult * option JsError)
    (i18n : I18nOptions) (emittedFiles : list EmittedFiles)
    (baseOutputPath : string) (outputPaths scriptsEntryPointName : list string)
    (emittedPath : string) (es5' : bool)
    (missingTranslation' : option MissingTranslation) (fs : FS) :
  (∀ options,
     (inlineAll i18n options).2 = (inlineAll' i18n options).2
     ∧ (inlineAll i18n options).1 ≡ₚ (inlineAll' i18n options).1) →
  (i18nInlineEmittedFiles I18nOptions inlineAll i18n emittedFiles baseOutputPath
     outputPaths scriptsEntryPointName emittedPath es5' missingTranslation' fs).1
  = (i18nInlineEmittedFiles I18nOptions inlineAll' i18n emittedFiles baseOutputPath
       outputPaths scriptsEntryPointName emittedPath es5' missingTranslation' fs).1.
Proof.
  intros Hsame.
  pose proof (run_cases I18nOptions inlineAll i18n emittedFiles baseOutputPath
    outputPaths scriptsEntryPointName emittedPath es5' missingTranslation' fs) as H.
  pose proof (run_cases I18nOptions inlineAll' i18n emittedFiles baseOutputPath
    outputPaths scriptsEntryPointName emittedPath es5' missingTranslation' fs) as H'.
  destruct (emittedFilesToInlineOptions scriptsEntryPointName emittedPath
              baseOutputPath es5' missingTranslation' emittedFiles fs)
    as [[[[options files]|err] fs1] t1].
  - cbv zeta in H, H'. destruct H as [_ H], H' as [_ H'].
    destruct (Hsame options) as [Hfail Hperm]. rewrite <- Hfail in H'.
    rewrite <- (existsb_Permutation has_error _ _ Hperm) in H'.
    destruct (inlineAll i18n options).2 as [err|].
    { by rewrite H, H'. }
    destruct (copyAssets emittedPath (path.relative emittedPath <$> files)
                outputPaths fs1) as [[[[]|err] fs2] t3];
      destruct H as [_ H], H' as [_ H']; by rewrite H, H'.
  - by rewrite H, H'.
Qed.

Lemma outcome_independent_of_arrival_order_witness :
  (i18nInlineEmittedFiles unit Orders.mixed ()
     [Scenario.main_js; Scenario.styles_css; Scenario.runtime_js] "out"
     ["fr"; "de"] [] "tmp" false None Scenario.disk).1
  = (i18nInlineEmittedFiles unit Orders.mixed_reversed ()
       [Scenario.main_js; Scenario.styles_css; Scenario.runtime_js] "out"
       ["fr"; "de"] [] "tmp" false None Scenario.disk).1.
Proof.
  apply outcome_independent_of_arrival_order.
  intros options. split; [reflexivity |].
  unfold Orders.mixed_reversed. cbn [fst]. symmetry. apply reverse_Permutation.
Defined.

(** X11. In every run, the messages sent to [logger.error] are exactly
    the messages of the error diagnostics of the results received, in
    order, and those sent to [logger.warn] exactly the messages of the
    other diagnostics: a fatal exception is never written to either
    channel, and neither is a failure to unlink. *)
Theorem logger_channels_of_run (I18nOptions : Type)
    (inlineAll : I18nOptions → list InlineOptions →
                 list TransformResult * option JsError)
    (i18n : I18nOptions) (emittedFiles : list EmittedFiles)
    (baseOutputPath : string) (outputPaths scriptsEntryPointName : list string)
    (emittedPath : string) (es5' : bool)
    (missingTranslation' : option MissingTranslation) (fs : FS) :
  let t :=
    (i18nInlineEmittedFiles I18nOptions inlineAll i18n emittedFiles baseOutputPath
       outputPaths scriptsEntryPointName emittedPath es5' missingTranslation' fs).2 in
  let received :=
    observed I18nOptions inlineAll i18n emittedFiles baseOutputPath
      scriptsEntryPointName emittedPath es5' missingTranslation' fs
    ≫= diagnostics in
  errors_logged t = diag_message <$> filter (λ d, is_error d = true) received
  ∧ warnings_logged t = diag_message <$> filter (λ d, is_error d = false) received.
Proof.
  cbv zeta.
  pose proof (run_cases I18nOptions inlineAll i18n emittedFiles baseOutputPath
    outputPaths scriptsEntryPointName emittedPath es5' missingTranslation' fs) as H.
  unfold observed.
  assert (∀ t, Forall (λ ev, consume_event ev = true) t →
            errors_logged t = [] ∧ warnings_logged t = []) as L1.
  { intros t Ht. split; by apply (omap_none _ consume_event); [intros [] |]. }
  assert (∀ t, Forall (λ ev, is_copy ev = true) t →
            errors_logged t = [] ∧ warnings_logged t = []) as L3.
  { intros t Ht. split; by apply (omap_none _ is_copy); [intros [] |]. }
  destruct (emittedFilesToInlineOptions scriptsEntryPointName emittedPath
              baseOutputPath es5' missingTranslation' emittedFiles fs)
    as [[[[options files]|err] fs1] t1] eqn:Hc.
  - cbv zeta in H. destruct H as [Hk1 H].
    destruct (L1 _ Hk1) as [E1 W1].
    destruct (logged_result_events (inlineAll i18n options).1) as (_ & E2 & W2).
    assert (∀ t3 tail,
      errors_logged t3 = [] → warnings_logged t3 = [] →
      errors_logged tail = [] → warnings_logged tail = [] →
      let t := [ExecutorNew; SpinnerStart (Some "Generating localized bundles...")]
               ++ t1 ++ (ExecutorInlineAll options
                           :: flat_map result_events (inlineAll i18n options).1)
               ++ t3 ++ tail in
      errors_logged t
      = diag_message <$> filter (λ d, is_error d = true)
                           ((inlineAll i18n options).1 ≫= diagnostics)
      ∧ warnings_logged t
        = diag_message <$> filter (λ d, is_error d = false)
                             ((inlineAll i18n options).1 ≫= diagnostics)) as Hparts.
    { intros t3 tail E3 W3 E4 W4. cbv zeta. rewrite <- E2, <- W2.
      unfold errors_logged, warnings_logged in *.
      rewrite !omap_app, E1, W1, E3, W3, E4, W4, !app_nil_r.
      by split. }
    destruct (inlineAll i18n options).2 as [err|].
    { rewrite H. cbn [snd].
      change (?a ++ t1 ++ ?b ++ ?c) with (a ++ t1 ++ b ++ [] ++ c).
      by apply Hparts. }
    destruct (copyAssets emittedPath (path.relative emittedPath <$> files)
                outputPaths fs1) as [[[[]|err] fs2] t3];
      destruct H as [Hk3 H]; destruct (L3 _ Hk3) as [E3 W3];
      rewrite H; cbn [snd]; apply Hparts; try done;
      by destruct (existsb has_error _).
  - pose proof (consume_all_kinds _ _ _ _ _ _ _ _ _ _ Hc) as Hk1.
    destruct (L1 _ Hk1) as [E1 W1]. rewrite H. cbn [snd].
    unfold errors_logged, warnings_logged in *.
    by rewrite !omap_app, E1, W1.
Qed.

(** ** A script listed twice *)

Lemma NoDup_bind_heads {A B} (f : A → list B) (h : A → B) (l : list A) :
  (∀ x, h x ∈ f x) → NoDup (l ≫= f) → NoDup (h <$> l).
Proof.
  intros Hh. induction l as [|x l IH]; [constructor |].
  rewrite bind_cons, fmap_cons. intros (_ & Hdisj & Hrest)%NoDup_app.
  constructor; [|by apply IH].
  intros (y & Hy & Hin)%list_elem_of_fmap.
  apply (Hdisj (h x) (Hh x)). apply list_elem_of_bind. exists y.
  split; [|done]. rewrite Hy. apply Hh.
Qed.

(** X12. On a disk where [unlinkSync] succeeds on every file, a list in
    which two files that are not skipped have the same file name makes
    consumption throw: the second read finds the file already unlinked. *)
Theorem script_listed_twice_aborts (scriptsEntryPointName : list string)
    (emittedPath out : string) (es5' : bool) (mt : option MissingTranslation)
    (l : list EmittedFiles) (fs : FS) :
  deletable fs →
  ¬ NoDup (file <$> kept scriptsEntryPointName l) →
  ∃ err fs' t,
    emittedFilesToInlineOptions scriptsEntryPointName emittedPath out es5' mt l fs
    = (Throw err, fs', t).
Proof.
  intros Hd Hdup.
  destruct (emittedFilesToInlineOptions scriptsEntryPointName emittedPath out
              es5' mt l fs) as [[[[options files]|err] fs'] t] eqn:Hrun; [|eauto].
  destruct Hdup. unfold emittedFilesToInlineOptions in Hrun.
  pose proof (loop_values _ _ _ _ _ _ _ _ _ _ _ _ _ Hrun)
    as (_ & news & Hnews & Hall).
  apply loop_Ok_shape in Hrun as (news' & Hopts & _ & Hp & _ & Hgone).
  change ([] ++ ?u) with u in Hopts, Hnews. subst news' news.
  destruct (Hgone Hd) as [Hnd _]. rewrite Hp in Hnd.
  apply (NoDup_bind_heads _ (λ o, path.join emittedPath (filename o))) in Hnd.
  2:{ intros o. apply list_elem_of_here. }
  apply requests_files in Hall.
  assert (filename <$> options = file <$> kept scriptsEntryPointName l) as <-.
  { clear -Hall. induction Hall as [|o e news' l' [Hf _] _ IH]; [done |].
    by rewrite !fmap_cons, Hf, IH. }
  apply (NoDup_fmap_1 (path.join emittedPath)). by rewrite <- list_fmap_compose.
Qed.

Lemma script_listed_twice_aborts_witness :
  ∃ err fs' t,
    emittedFilesToInlineOptions [] "tmp" "out" false None
      [Scenario.main_js; Scenario.main_js] Scenario.disk
    = (Throw err, fs', t).
Proof.
  apply script_listed_twice_aborts.
  - apply deletable_disk.
  - vm_compute. intros H. apply NoDup_cons in H as [H _].
    apply H, list_elem_of_here.
Defined.
